(** * Fortuna Protocol: the SDK helpers and the market ledger

  A shallow embedding of the TypeScript SDK of the Fortuna prediction-market
  framework (sdk/src/utils.ts, sdk/src/types.ts, sdk/src/constants.ts) and of
  the ledger state machine the SDK talks to, followed by the properties
  stated about them.

  Conventions.
  - A [BN] (bn.js big number) is an element of [Z]: [add], [sub] and [mul]
    are exact, [div] truncates toward zero ([Z.quot]), [isZero] tests
    against [0].
  - A JavaScript [number] that holds a count, an index, a basis-point value
    or an amount is a whole number, an element of [Z] as well; [new BN(n)]
    accepts it below [2 ^ 53] in absolute value and throws from there on.
  - A call that throws returns [None]; the SDK functions that can throw
    return an [option].
  - A [Buffer] and a [Uint8Array] are byte strings: [string], one [ascii]
    per byte, or lists of byte values. A JavaScript string that can hold any
    text is the list of its UTF-16 code units. *)

From Stdlib Require Import ZArith List String Ascii Bool Lia.
From stdpp Require Import gmap strings list fin_maps sorting pretty.

Local Open Scope Z_scope.

(** ** sdk/src/constants.ts *)

Module Constants.

Definition PROTOCOL_SEED : string := "protocol".
Definition MARKET_SEED : string := "market".
Definition MARKET_VAULT_SEED : string := "market_vault".
Definition POOL_VAULT_SEED : string := "pool_vault".
Definition BET_SEED : string := "bet".
Definition ORACLE_SEED : string := "oracle".
Definition LICENSE_SEED : string := "license".

Definition DEFAULT_PROTOCOL_FEE_BPS : Z := 50.
Definition DEFAULT_CREATOR_FEE_BPS : Z := 50.
Definition DEFAULT_POOL_FEE_BPS : Z := 500.

Definition MAX_TOTAL_FEE_BPS : Z := 1000.
Definition MAX_OUTCOMES : Z := 10.
Definition MAX_TITLE_LENGTH : Z := 128.
Definition MAX_DESCRIPTION_LENGTH : Z := 512.
Definition MAX_OUTCOME_LENGTH : Z := 64.
Definition MAX_ORACLE_NAME_LENGTH : Z := 64.
Definition MAX_DATA_SOURCE_LENGTH : Z := 256.
Definition MAX_LICENSE_DOMAINS : Z := 5.
Definition MAX_LICENSE_WALLETS : Z := 10.
Definition MAX_DOMAIN_NAME_LENGTH : Z := 64.

Definition BPS_DENOMINATOR : Z := 10000.

End Constants.

(** ** bn.js numbers *)

Definition BN : Type := Z.

(** An argument of TypeScript type [BN | number]. *)
Inductive BNOrNumber : Type :=
| IsBN (b : BN)
| IsNumber (n : Z).

(** The numbers [new BN] accepts: bn.js asserts [number < 0x20000000000000]
    on the absolute value. *)
Definition safeNumber (n : Z) : Prop := Z.abs n < 2 ^ 53.

(** [new BN(number)] *)
Definition newBN (number : Z) : option BN :=
  if Z.abs number <? 2 ^ 53 then Some number else None.

(** [typeof x === 'number' ? new BN(x) : x] *)
Definition toBN (x : BNOrNumber) : option BN :=
  match x with
  | IsNumber n => newBN n
  | IsBN b => Some b
  end.

(** The integer an argument stands for, and the arguments the conversion
    accepts: every [BN], and the numbers [new BN] accepts. *)
Definition valueOf (x : BNOrNumber) : Z :=
  match x with
  | IsNumber n => n
  | IsBN b => b
  end.

Definition converts (x : BNOrNumber) : Prop :=
  match x with
  | IsNumber n => safeNumber n
  | IsBN _ => True
  end.

(** ** The fee engine (sdk/src/utils.ts) *)

Module Fees.
Import Constants.

Record FeeBreakdown : Type := mkFeeBreakdown {
  poolFee : BN;
  creatorFee : BN;
  protocolFee : BN;
  netAmount : BN;
  totalFees : BN
}.

Definition calculateFees (amount : BNOrNumber)
    (protocolFeeBps creatorFeeBps poolFeeBps : Z) : option FeeBreakdown :=
  amountBN ← toBN amount;
  poolFee ←
    (bps ← newBN poolFeeBps; denom ← newBN BPS_DENOMINATOR;
     Some (Z.quot (amountBN * bps) denom));
  creatorFee ←
    (bps ← newBN creatorFeeBps; denom ← newBN BPS_DENOMINATOR;
     Some (Z.quot (amountBN * bps) denom));
  protocolFee ←
    (bps ← newBN protocolFeeBps; denom ← newBN BPS_DENOMINATOR;
     Some (Z.quot (amountBN * bps) denom));
  let totalFees := poolFee + creatorFee + protocolFee in
  let netAmount := amountBN - totalFees in
  Some {| poolFee := poolFee;
          creatorFee := creatorFee;
          protocolFee := protocolFee;
          netAmount := netAmount;
          totalFees := totalFees |}.

Definition calculatePotentialWinnings
    (betAmount currentOutcomeTotal totalPool bonusPool : BNOrNumber)
    (protocolFeeBps creatorFeeBps poolFeeBps : Z) : option BN :=
  fees ← calculateFees betAmount protocolFeeBps creatorFeeBps poolFeeBps;
  currentOutcomeBN ← toBN currentOutcomeTotal;
  totalPoolBN ← toBN totalPool;
  bonusPoolBN ← toBN bonusPool;
  let newOutcomeTotal := currentOutcomeBN + netAmount fees in
  let totalDistributable := totalPoolBN + bonusPoolBN + netAmount fees in
  if newOutcomeTotal =? 0 then Some totalDistributable
  else Some (Z.quot (netAmount fees * totalDistributable) newOutcomeTotal).

(** Modelled from the spec: [computeFees] of the fee engine, in the words
    of the specification: each fee is [amount * bps / 10000] taken on its
    own, every division truncating toward zero, and the net amount is the
    amount less the total fees. It has no error condition. The on-chain
    program, which is not part of the SDK, applies it to each bet. *)
Definition computeFees (amount protocolFeeBps creatorFeeBps poolFeeBps : Z)
    : FeeBreakdown :=
  let poolFee := Z.quot (amount * poolFeeBps) BPS_DENOMINATOR in
  let creatorFee := Z.quot (amount * creatorFeeBps) BPS_DENOMINATOR in
  let protocolFee := Z.quot (amount * protocolFeeBps) BPS_DENOMINATOR in
  let totalFees := poolFee + creatorFee + protocolFee in
  let netAmount := amount - totalFees in
  {| poolFee := poolFee;
     creatorFee := creatorFee;
     protocolFee := protocolFee;
     netAmount := netAmount;
     totalFees := totalFees |}.

(** The share rule in the words of the specification: the net amount of
    the bet times the distributable amount, over the outcome total after the
    bet, the whole distributable amount when that total is zero. *)
Definition shareRule (netAmount outcomeTotalBeforeBet totalPool bonusPool : Z) : Z :=
  let outcomeTotalAfterBet := outcomeTotalBeforeBet + netAmount in
  if decide (outcomeTotalAfterBet = 0)
  then totalPool + bonusPool + netAmount
  else Z.quot (netAmount * (totalPool + bonusPool + netAmount)) outcomeTotalAfterBet.

End Fees.

(** ** JavaScript strings

    The string methods the SDK uses, on [list ascii]. Indices and lengths are
    JavaScript numbers, here [Z]; a negative index counts from the end, as
    [String.prototype.slice] does. *)

Module JSString.

Definition jsstring : Type := list ascii.

Definition strlen (s : jsstring) : Z := Z.of_nat (length s).


(** [s.padEnd(targetLength, c)] for a one-character pad string. *)
Definition padEnd (s : jsstring) (targetLength : Z) (c : ascii) : jsstring :=
  s ++ repeat c (Z.to_nat (targetLength - strlen s)).

(** A relative index of [slice], clamped to [0 .. length]. *)
Definition clampIndex (len i : Z) : Z :=
  if i <? 0 then Z.max (len + i) 0 else Z.min i len.

(** [s.slice(start, end)] *)
Definition slice (s : jsstring) (start end_ : Z) : jsstring :=
  let from := clampIndex (strlen s) start in
  let to := clampIndex (strlen s) end_ in
  firstn (Z.to_nat (to - from)) (skipn (Z.to_nat from) s).


(** [s.split(sep)] for a one-character separator. *)
Fixpoint split (sep : ascii) (s : jsstring) : list jsstring :=
  match s with
  | [] => [[]]
  | c :: rest =>
      if Ascii.eqb c sep then [] :: split sep rest
      else match split sep rest with
           | [] => [[c]]
           | piece :: pieces => (c :: piece) :: pieces
           end
  end.

End JSString.

(** ** Decimal text of a BN *)

Module BNText.
Import JSString.





Definition digitValue (c : ascii) : option Z :=
  let k := Z.of_nat (nat_of_ascii c) in
  if (48 <=? k) && (k <=? 57) then Some (k - 48) else None.

(** Horner evaluation of a digit string; [None] on a character that is not
    a decimal digit (bn.js raises "Invalid character"). *)
Fixpoint parseDigits (acc : Z) (s : jsstring) : option Z :=
  match s with
  | [] => Some acc
  | c :: rest =>
      match digitValue c with
      | Some d => parseDigits (acc * 10 + d) rest
      | None => None
      end
  end.


(** [new BN(s)] (base 10), with an optional leading minus sign. *)
Definition ofString (s : jsstring) : option BN :=
  match s with
  | c :: rest =>
      if Ascii.eqb c "-" then Z.opp <$> parseDigits 0 rest
      else parseDigits 0 s
  | [] => Some 0
  end.

End BNText.

(** ** Amount formatting (sdk/src/utils.ts) *)

Module Amounts.
Import JSString BNText.


(** [parseAmount] on its [string] argument ([amount.toString()] is then
    the identity). The destructuring [[intPart, decPart = '']] takes the
    first two pieces of the split, the second defaulting to the empty
    string. *)
Definition parseAmount (amount : jsstring) (decimals : Z) : option BN :=
  let str := amount in
  let pieces := split "." str in
  let intPart := nth 0 pieces [] in
  let decPart := nth 1 pieces [] in
  let paddedDec := slice (padEnd decPart decimals "0") 0 decimals in
  ofString (intPart ++ paddedDec).

End Amounts.

(** ** Category vectors (sdk/src/types.ts) *)

Module Categories.

(** A [MarketCategory] is the number of the category, [Politics = 0] up
    to [Mentions = 11]. *)
Definition MarketCategory : Type := Z.

(** The body of the loop of [categoriesToBoolArray]:
    [if (cat >= 0 && cat < 12) result[cat] = true]. *)
Definition mark (result : list bool) (cat : MarketCategory) : list bool :=
  if (0 <=? cat) && (cat <? 12) then <[Z.to_nat cat := true]> result else result.

Definition categoriesToBoolArray (categories : list MarketCategory) : list bool :=
  fold_left mark categories (replicate 12 false).

(** The loop [for (let i = 0; i < boolArray.length && i < 12; i++)] runs
    over the indices below the smaller of the length and twelve;
    [categories.push(i)] appends at the end. *)
Definition boolArrayToCategories (boolArray : list bool) : list MarketCategory :=
  fold_left
    (fun categories i =>
       if nth i boolArray false
       then categories ++ [Z.of_nat i]
       else categories)
    (seq 0 (Nat.min (length boolArray) 12)) [].

(** The category values, [0] to [11]. *)
Definition inRange (cat : MarketCategory) : Prop := 0 <= cat < 12.

Definition inRangeb (cat : MarketCategory) : bool := (0 <=? cat) && (cat <? 12).

End Categories.

(** ** License keys (sdk/src/utils.ts) *)

Module LicenseKey.

(** The seed is a JavaScript string, given by its UTF-16 code units, each
    in [[0, 65536)]. *)
Definition isCodeUnit (u : Z) : Prop := 0 <= u < 65536.

(** The code units [0xD800 .. 0xDBFF] and [0xDC00 .. 0xDFFF]. *)
Definition isHighSurrogate (u : Z) : bool := (55296 <=? u) && (u <=? 56319).
Definition isLowSurrogate (u : Z) : bool := (56320 <=? u) && (u <=? 57343).

(** The code point of a surrogate pair. *)
Definition pairPoint (hi lo : Z) : Z := 65536 + (hi - 55296) * 1024 + (lo - 56320).

(** The UTF-8 bytes of a code point. *)
Definition utf8 (cp : Z) : list Z :=
  if cp <? 128 then [cp]
  else if cp <? 2048 then [192 + cp / 64; 128 + cp mod 64]
  else if cp <? 65536 then
    [224 + cp / 4096; 128 + (cp / 64) mod 64; 128 + cp mod 64]
  else
    [240 + cp / 262144; 128 + (cp / 4096) mod 64; 128 + (cp / 64) mod 64;
     128 + cp mod 64].

(** [new TextEncoder().encode(seed)]: the UTF-8 bytes of the string, as
    numbers. A high surrogate followed by a low one is one code point; a
    surrogate without its partner is encoded as U+FFFD (bytes EF BF BD). *)
Fixpoint encode (seed : list Z) : list Z :=
  match seed with
  | [] => []
  | u :: rest =>
      if isHighSurrogate u then
        match rest with
        | v :: rest' =>
            if isLowSurrogate v then utf8 (pairPoint u v) ++ encode rest'
            else utf8 65533 ++ encode rest
        | [] => utf8 65533
        end
      else if isLowSurrogate u then utf8 65533 ++ encode rest
      else utf8 u ++ encode rest
  end.

(** [seed.isWellFormed()]: no surrogate without its partner. *)
Fixpoint isWellFormed (seed : list Z) : bool :=
  match seed with
  | [] => true
  | u :: rest =>
      if isHighSurrogate u then
        match rest with
        | v :: rest' => isLowSurrogate v && isWellFormed rest'
        | [] => false
        end
      else negb (isLowSurrogate u) && isWellFormed rest
  end.

(** The code units of a string literal of ASCII characters. *)
Definition literal (s : string) : list Z :=
  map (fun c => Z.of_nat (nat_of_ascii c)) (list_ascii_of_string s).

(** The loop [for (let i = 0; i < data.length; i++) hash[i % 32] ^= data[i]],
    entered at index [i] with the bytes from [i] on still to be read. *)
Fixpoint xorFold (i : nat) (data : list Z) (hash : list Z) : list Z :=
  match data with
  | [] => hash
  | d :: rest =>
      xorFold (S i) rest
        (<[(i mod 32)%nat := Z.lxor (nth (i mod 32)%nat hash 0) d]> hash)
  end.

Definition generateLicenseKey (seed : list Z) : list Z :=
  let data := encode seed in
  let hash := replicate 32 0 in
  xorFold 0 data hash.

Definition isByte (b : Z) : Prop := 0 <= b < 256.

(** A seed whose encoding has at most 32 bytes, none of them zero. *)
Definition shortSeed (seed : list Z) : Prop :=
  (length (encode seed) <= 32)%nat /\ Forall (fun b => b <> 0) (encode seed).

(** Two seeds of printable characters, of 33 and of 32 bytes. *)
Definition seedA : list Z := literal "abbbbbbbbbbbbbbbbbbbbbbbbbbbbbbbA".
Definition seedB : list Z := literal " bbbbbbbbbbbbbbbbbbbbbbbbbbbbbbb".

(** One round of the loop, [hash[p] ^= d]. *)
Definition fold1 (p : nat) (d : Z) (hash : list Z) : list Z :=
  <[p := Z.lxor (nth p hash 0) d]> hash.

End LicenseKey.

(** ** Program addresses (sdk/src/utils.ts) *)

Module PDA.
Import Constants.

(** A [PublicKey], given by the bytes its [toBuffer()] returns. *)
Record PublicKey : Type := mkPublicKey { toBuffer : string }.

#[global] Instance PublicKey_eq_dec : EqDecision PublicKey.
Proof. solve_decision. Defined.

#[global] Instance PublicKey_countable : Countable PublicKey.
Proof.
  apply (inj_countable' toBuffer mkPublicKey). intros []. reflexivity.
Defined.

(** The [n] low bytes of a number, least significant first. *)
Fixpoint leBytes (n : nat) (z : Z) : string :=
  match n with
  | O => EmptyString
  | S n' => String (ascii_of_nat (Z.to_nat (z mod 256))) (leBytes n' (z / 256))
  end.

(** [b.toArrayLike(Buffer, 'le', n)] of bn.js: the bytes of the magnitude
    of [b] (the sign is not written), least significant first, in [n] bytes;
    bn.js asserts that the magnitude fits and throws otherwise. *)
Definition toArrayLike (n : nat) (b : BN) : option string :=
  if Z.abs b <? 256 ^ Z.of_nat n then Some (leBytes n (Z.abs b)) else None.

(** [Buffer.alloc(4)] followed by [writeUInt32LE(value)]: the four bytes of
    the value; the write throws a [RangeError] outside [[0, 2 ^ 32)]. *)
Definition writeUInt32LE (value : Z) : option string :=
  if (0 <=? value) && (value <? 2 ^ 32) then Some (leBytes 4 value) else None.

(** [Buffer.from(bytes)] on an array of numbers keeps each entry modulo 256. *)
Definition bufferFrom (bytes : list Z) : string :=
  string_of_list_ascii (map (fun b => ascii_of_nat (Z.to_nat (b mod 256))) bytes).

Section Derivation.

(** [PublicKey.findProgramAddressSync] of the Solana client library: the
    address and the bump seed derived from a list of seeds and a program id.
    The default [programId] of the SDK functions, [FORTUNA_PROGRAM_ID], is
    passed explicitly. The library function refuses a seed of more than 32
    bytes; the tags, the identifiers and the bytes of a key are within
    that, a license key is when it has at most 32 entries. *)
Variable findProgramAddressSync : list string -> PublicKey -> PublicKey * Z.

Definition getProtocolStatePDA (programId : PublicKey) : PublicKey * Z :=
  findProgramAddressSync [PROTOCOL_SEED] programId.

Definition getMarketPDA (marketId : BNOrNumber) (programId : PublicKey)
    : option (PublicKey * Z) :=
  id ← toBN marketId;
  idBuffer ← toArrayLike 8 id;
  Some (findProgramAddressSync [MARKET_SEED; idBuffer] programId).

Definition getMarketVaultPDA (marketPubkey programId : PublicKey) : PublicKey * Z :=
  findProgramAddressSync [MARKET_VAULT_SEED; toBuffer marketPubkey] programId.

Definition getPoolVaultPDA (marketPubkey programId : PublicKey) : PublicKey * Z :=
  findProgramAddressSync [POOL_VAULT_SEED; toBuffer marketPubkey] programId.

Definition getBetPDA (marketPubkey bettorPubkey programId : PublicKey)
    : PublicKey * Z :=
  findProgramAddressSync
    [BET_SEED; toBuffer marketPubkey; toBuffer bettorPubkey] programId.

Definition getOraclePDA (oracleId : Z) (programId : PublicKey)
    : option (PublicKey * Z) :=
  idBuffer ← writeUInt32LE oracleId;
  Some (findProgramAddressSync [ORACLE_SEED; idBuffer] programId).

Definition getLicensePDA (licenseKey : list Z) (programId : PublicKey)
    : PublicKey * Z :=
  let keyBuffer := bufferFrom licenseKey in
  findProgramAddressSync [LICENSE_SEED; keyBuffer] programId.

End Derivation.

(** A derivation function, and what it means that a call of an SDK address
    function passes a seed list: the call returns what the derivation
    function derives from these seeds, whichever function that is. *)
Definition Derivation : Type := list string -> PublicKey -> PublicKey * Z.

Definition passes (call : Derivation -> PublicKey -> option (PublicKey * Z))
    (seeds : list string) : Prop :=
  forall (derive : Derivation) (programId : PublicKey),
    call derive programId = Some (derive seeds programId).

End PDA.

(** ** The ledger records (sdk/src/types.ts and the data model) *)

Module Records.
Import PDA.

Inductive MarketStatus : Type := Open | Resolved | Cancelled.

#[global] Instance MarketStatus_eq_dec : EqDecision MarketStatus.
Proof. solve_decision. Defined.

Inductive LicenseType : Type := Basic | Pro | Enterprise | Custom.

Record LicenseFeatures : Type := mkLicenseFeatures {
  canCreateMarkets : bool;
  canUseOracles : bool;
  canCreatePrivateMarkets : bool;
  canSetCustomFees : bool;
  reserved : list bool
}.

Record Outcome : Type := mkOutcome {
  label : string;
  totalAmount : BN;
  bettorCount : Z
}.

Record ProtocolState : Type := mkProtocolState {
  authority : PublicKey;
  treasury : PublicKey;
  protocolFeeBps : Z;
  creatorFeeBps : Z;
  poolFeeBps : Z;
  totalMarkets : BN;
  totalVolume : BN;
  totalOracles : Z;
  totalLicenses : Z;
  requireLicense : bool
}.

(** [maxMarkets] is [None] for a license without a finite quota. *)
Record License : Type := mkLicense {
  licenseKey : list Z;
  holder : PublicKey;
  licenseType : LicenseType;
  features : LicenseFeatures;
  allowedDomains : list string;
  allowedWallets : list PublicKey;
  maxMarkets : option Z;
  marketsCreated : Z;
  isActive : bool;
  isTransferable : bool;
  issuedAt : BN;
  expiresAt : BN;
  lastUsedAt : BN;
  issuedBy : PublicKey
}.

Record Oracle : Type := mkOracle {
  oracleId : Z;
  oracleAuthority : PublicKey;
  name : string;
  categories : list bool;
  dataSource : string;
  oracleActive : bool;
  marketsResolved : BN;
  registeredAt : BN;
  lastResolutionAt : BN
}.

(** [oracle] and [oracleEventId] are optional: a market starts without
    them. *)
Record Market : Type := mkMarket {
  marketId : BN;
  creator : PublicKey;
  creatorFeeWallet : PublicKey;
  tokenMint : PublicKey;
  category : Z;
  oracle : option PublicKey;
  oracleEventId : option string;
  title : string;
  description : string;
  betAmount : BN;
  bettingDeadline : BN;
  resolutionDeadline : BN;
  status : MarketStatus;
  winningOutcome : Z;
  totalPool : BN;
  bonusPool : BN;
  outcomes : list Outcome;
  createdAt : BN;
  resolvedAt : BN;
  resolvedByOracle : bool
}.

Record Bet : Type := mkBet {
  market : PublicKey;
  bettor : PublicKey;
  outcomeIndex : Z;
  originalAmount : BN;
  poolAmount : BN;
  claimed : bool;
  placedAt : BN
}.

End Records.
(** ** The ledger state machine

    The on-chain program (programs/fortuna-protocol/src) is the part of the
    repository that holds the records and applies the instructions; the SDK
    and the integration tests only call it. Its instructions are modelled
    here from the specification, one function per instruction, over an
    explicit ledger state. An instruction either returns the new ledger or
    fails with an error and no ledger: a failed call commits nothing. Guards
    are checked in the order the specification lists their errors. Amounts
    are integers without an upper bound (no width is specified), subtraction
    is checked. *)

Module Ledger.
Import Constants PDA Records Fees.

(** The error kinds of the specification, and three for what it leaves to
    the host: a record that does not exist ([AccountNotFound]), a record that
    exists already ([AccountInUse]) and a malformed argument it names no error
    for ([InvalidArgument]). *)
Inductive Error : Type :=
| Unauthorized
| LicenseRequired
| LicenseInvalid
| LicenseInactive
| LicenseExpired
| LicenseQuotaExceeded
| WalletNotAuthorized
| DomainNotAuthorized
| OracleInactive
| OracleCategoryMismatch
| OracleNotAssigned
| OracleNotFound
| MarketNotOpen
| MarketNotResolved
| MarketNotCancelled
| BettingClosed
| BettingNotClosed
| AlreadyClaimed
| AlreadyBet
| WrongOutcome
| InsufficientFunds
| InvalidDeadline
| InvalidOutcomeCount
| InvalidOutcome
| InvalidFeeConfiguration
| ArithmeticFault
| AccountNotFound
| AccountInUse
| InvalidArgument.

Inductive result (A : Type) : Type :=
| Ok (a : A)
| Err (e : Error).

Arguments Ok {A} a.
Arguments Err {A} e.

#[global] Instance result_ret : MRet result := fun A a => Ok a.

#[global] Instance result_bind : MBind result :=
  fun A B f r => match r with Ok a => f a | Err e => Err e end.

Definition require (b : bool) (e : Error) : result unit :=
  if b then Ok tt else Err e.

Definition fromOption {A} (o : option A) (e : Error) : result A :=
  match o with
  | Some a => Ok a
  | None => Err e
  end.

Definition isOk {A} (r : result A) : bool :=
  match r with
  | Ok _ => true
  | Err _ => false
  end.

Definition checkedSub (a b : Z) : result Z :=
  if b <=? a then Ok (a - b) else Err ArithmeticFault.

(** Balances of the stake assets, by holder (an identity or a vault address)
    and asset. *)
Abbreviation Balances := (gmap (PublicKey * PublicKey) Z).

Record LedgerState : Type := mkLedger {
  protocol : option ProtocolState;
  markets : gmap PublicKey Market;
  bets : gmap PublicKey Bet;
  oracles : gmap PublicKey Oracle;
  licenses : gmap PublicKey License;
  balances : Balances
}.

Definition emptyLedger : LedgerState :=
  {| protocol := None; markets := ∅; bets := ∅; oracles := ∅; licenses := ∅;
     balances := ∅ |}.

(** What later ledgers keep of a market: once it has left [Open], its
    status and its winning outcome. *)
Definition marketKept (m m' : Market) : Prop :=
  status m = Open \/
  (status m' = status m /\ winningOutcome m' = winningOutcome m).

(** What later ledgers keep of a bet: the market, the bettor and the
    outcome it is on, and the [claimed] flag once it is set. *)
Definition betKept (b b' : Bet) : Prop :=
  market b' = market b /\ bettor b' = bettor b /\
  outcomeIndex b' = outcomeIndex b /\
  (claimed b = true -> claimed b' = true).

(** [extends st st']: no market and no bet of [st] is missing from [st'],
    and each is kept in the sense above. *)
Definition extends (st st' : LedgerState) : Prop :=
  (forall a m, markets st !! a = Some m ->
     exists m', markets st' !! a = Some m' /\ marketKept m m') /\
  (forall a b, bets st !! a = Some b ->
     exists b', bets st' !! a = Some b' /\ betKept b b').

Definition balanceOf (bal : Balances) (owner asset : PublicKey) : Z :=
  default 0 (bal !! (owner, asset)).

(** Modelled from the spec: the funds movement collaborator
    [transfer(from, to, amount, asset)], with checked subtraction. *)
Definition transfer (from to : PublicKey) (amount : Z) (asset : PublicKey)
    (bal : Balances) : result Balances :=
  require (0 <=? amount) ArithmeticFault ;;
  require (amount <=? balanceOf bal from asset) InsufficientFunds ;;
  let bal1 := <[(from, asset) := balanceOf bal from asset - amount]> bal in
  Ok (<[(to, asset) := balanceOf bal1 to asset + amount]> bal1).

(** *** Record updates *)

Definition setBalances (bal : Balances) (st : LedgerState) : LedgerState :=
  {| protocol := protocol st; markets := markets st; bets := bets st;
     oracles := oracles st; licenses := licenses st; balances := bal |}.

Definition setProtocol (ps : ProtocolState) (st : LedgerState) : LedgerState :=
  {| protocol := Some ps; markets := markets st; bets := bets st;
     oracles := oracles st; licenses := licenses st; balances := balances st |}.

Definition putMarket (a : PublicKey) (m : Market) (st : LedgerState) : LedgerState :=
  {| protocol := protocol st; markets := <[a := m]> (markets st); bets := bets st;
     oracles := oracles st; licenses := licenses st; balances := balances st |}.

Definition putBet (a : PublicKey) (b : Bet) (st : LedgerState) : LedgerState :=
  {| protocol := protocol st; markets := markets st; bets := <[a := b]> (bets st);
     oracles := oracles st; licenses := licenses st; balances := balances st |}.

Definition putOracle (a : PublicKey) (o : Oracle) (st : LedgerState) : LedgerState :=
  {| protocol := protocol st; markets := markets st; bets := bets st;
     oracles := <[a := o]> (oracles st); licenses := licenses st;
     balances := balances st |}.

Definition putLicense (a : PublicKey) (l : License) (st : LedgerState) : LedgerState :=
  {| protocol := protocol st; markets := markets st; bets := bets st;
     oracles := oracles st; licenses := <[a := l]> (licenses st);
     balances := balances st |}.

Definition withFees (p c l : Z) (t : PublicKey) (r : bool) (ps : ProtocolState)
    : ProtocolState :=
  {| authority := authority ps; treasury := t;
     protocolFeeBps := p; creatorFeeBps := c; poolFeeBps := l;
     totalMarkets := totalMarkets ps; totalVolume := totalVolume ps;
     totalOracles := totalOracles ps; totalLicenses := totalLicenses ps;
     requireLicense := r |}.

Definition withCounters (nMarkets nOracles nLicenses : Z) (ps : ProtocolState)
    : ProtocolState :=
  {| authority := authority ps; treasury := treasury ps;
     protocolFeeBps := protocolFeeBps ps; creatorFeeBps := creatorFeeBps ps;
     poolFeeBps := poolFeeBps ps;
     totalMarkets := nMarkets; totalVolume := totalVolume ps;
     totalOracles := nOracles; totalLicenses := nLicenses;
     requireLicense := requireLicense ps |}.

(** The stake totals of a market: the outcome vector, the total pool and the
    bonus pool. *)
Definition withTotals (os : list Outcome) (pool bonus : BN) (m : Market) : Market :=
  {| marketId := marketId m; creator := creator m;
     creatorFeeWallet := creatorFeeWallet m; tokenMint := tokenMint m;
     category := category m; oracle := oracle m; oracleEventId := oracleEventId m;
     title := title m; description := description m; betAmount := betAmount m;
     bettingDeadline := bettingDeadline m; resolutionDeadline := resolutionDeadline m;
     status := status m; winningOutcome := winningOutcome m;
     totalPool := pool; bonusPool := bonus; outcomes := os;
     createdAt := createdAt m; resolvedAt := resolvedAt m;
     resolvedByOracle := resolvedByOracle m |}.

Definition withResolution (s : MarketStatus) (winner : Z) (at_ : BN) (byOracle : bool)
    (m : Market) : Market :=
  {| marketId := marketId m; creator := creator m;
     creatorFeeWallet := creatorFeeWallet m; tokenMint := tokenMint m;
     category := category m; oracle := oracle m; oracleEventId := oracleEventId m;
     title := title m; description := description m; betAmount := betAmount m;
     bettingDeadline := bettingDeadline m; resolutionDeadline := resolutionDeadline m;
     status := s; winningOutcome := winner;
     totalPool := totalPool m; bonusPool := bonusPool m; outcomes := outcomes m;
     createdAt := createdAt m; resolvedAt := at_;
     resolvedByOracle := byOracle |}.

Definition withStatus (s : MarketStatus) (m : Market) : Market :=
  withResolution s (winningOutcome m) (resolvedAt m) (resolvedByOracle m) m.

Definition withOracle (o : option PublicKey) (eventId : option string) (m : Market)
    : Market :=
  {| marketId := marketId m; creator := creator m;
     creatorFeeWallet := creatorFeeWallet m; tokenMint := tokenMint m;
     category := category m; oracle := o; oracleEventId := eventId;
     title := title m; description := description m; betAmount := betAmount m;
     bettingDeadline := bettingDeadline m; resolutionDeadline := resolutionDeadline m;
     status := status m; winningOutcome := winningOutcome m;
     totalPool := totalPool m; bonusPool := bonusPool m; outcomes := outcomes m;
     createdAt := createdAt m; resolvedAt := resolvedAt m;
     resolvedByOracle := resolvedByOracle m |}.

Definition withClaimed (b : Bet) : Bet :=
  {| market := market b; bettor := bettor b; outcomeIndex := outcomeIndex b;
     originalAmount := originalAmount b; poolAmount := poolAmount b;
     claimed := true; placedAt := placedAt b |}.

Definition withStake (amount : BN) (count : Z) (o : Outcome) : Outcome :=
  {| label := label o; totalAmount := amount; bettorCount := count |}.

Definition withOracleSettings (n : string) (cats : list bool) (src : string)
    (active : bool) (o : Oracle) : Oracle :=
  {| oracleId := oracleId o; oracleAuthority := oracleAuthority o; name := n;
     categories := cats; dataSource := src; oracleActive := active;
     marketsResolved := marketsResolved o; registeredAt := registeredAt o;
     lastResolutionAt := lastResolutionAt o |}.

Definition withResolutionCount (n at_ : BN) (o : Oracle) : Oracle :=
  {| oracleId := oracleId o; oracleAuthority := oracleAuthority o; name := name o;
     categories := categories o; dataSource := dataSource o;
     oracleActive := oracleActive o;
     marketsResolved := n; registeredAt := registeredAt o;
     lastResolutionAt := at_ |}.

Definition withLicenseSettings (h : PublicKey) (f : LicenseFeatures)
    (domains : list string) (wallets : list PublicKey) (quota : option Z)
    (active transferable : bool) (expiry : BN) (l : License) : License :=
  {| licenseKey := licenseKey l; holder := h; licenseType := licenseType l;
     features := f; allowedDomains := domains; allowedWallets := wallets;
     maxMarkets := quota; marketsCreated := marketsCreated l;
     isActive := active; isTransferable := transferable;
     issuedAt := issuedAt l; expiresAt := expiry; lastUsedAt := lastUsedAt l;
     issuedBy := issuedBy l |}.

Definition withUsage (used at_ : BN) (l : License) : License :=
  {| licenseKey := licenseKey l; holder := holder l; licenseType := licenseType l;
     features := features l; allowedDomains := allowedDomains l;
     allowedWallets := allowedWallets l;
     maxMarkets := maxMarkets l; marketsCreated := used;
     isActive := isActive l; isTransferable := isTransferable l;
     issuedAt := issuedAt l; expiresAt := expiresAt l; lastUsedAt := at_;
     issuedBy := issuedBy l |}.

Definition strlenZ (s : string) : Z := Z.of_nat (String.length s).
Definition lengthZ {A} (l : list A) : Z := Z.of_nat (length l).

Definition validFees (p c l : Z) : bool :=
  (0 <=? p) && (0 <=? c) && (0 <=? l) && (p + c + l <=? MAX_TOTAL_FEE_BPS).

Definition validIndex {A} (i : Z) (l : list A) : bool :=
  (0 <=? i) && (i <? lengthZ l).

(** Modelled from the spec: the payout of [claim_winnings],
    [poolAmount * (totalPool + bonusPool) / winningOutcomeTotal] with the
    division truncating, and the whole distributable amount on a zero
    denominator. *)
Definition winningsPayout (poolAmount totalPool bonusPool winningOutcomeTotal : BN)
    : BN :=
  if winningOutcomeTotal =? 0 then totalPool + bonusPool
  else Z.quot (poolAmount * (totalPool + bonusPool)) winningOutcomeTotal.

(** Modelled from the spec: the decision function
    [checkLicense(license, wallet, domain, now)] of the license registry. *)
Definition checkLicense (lic : License) (wallet : PublicKey) (domain : option string)
    (now : Z) : result unit :=
  require (isActive lic) LicenseInactive ;;
  require (negb (negb (expiresAt lic =? 0) && (expiresAt lic <? now))) LicenseExpired ;;
  require (match maxMarkets lic with
           | Some quota => marketsCreated lic <? quota
           | None => true
           end) LicenseQuotaExceeded ;;
  require (bool_decide (allowedWallets lic = []) ||
           bool_decide (wallet ∈ allowedWallets lic)) WalletNotAuthorized ;;
  require (bool_decide (allowedDomains lic = []) ||
           match domain with
           | Some d => bool_decide (d ∈ allowedDomains lic)
           | None => false
           end) DomainNotAuthorized.

(** The defaults of a license type (the table of license types of the
    README); a [Custom] license has what its issuer gives it. *)
Definition defaultMaxMarkets (t : LicenseType) : option Z :=
  match t with
  | Basic => Some 5
  | Pro => Some 50
  | Enterprise => None
  | Custom => Some 0
  end.

Definition defaultFeatures (t : LicenseType) : LicenseFeatures :=
  match t with
  | Basic => mkLicenseFeatures true false false false []
  | Pro => mkLicenseFeatures true true true false []
  | Enterprise => mkLicenseFeatures true true true true []
  | Custom => mkLicenseFeatures false false false false []
  end.

Section Instructions.

Variable findProgramAddressSync : list string -> PublicKey -> PublicKey * Z.
Variable programId : PublicKey.

(** Modelled from the spec: the address of the market with a given
    identifier, which the on-chain program derives from the market tag and
    the eight bytes of the identifier, as [getMarketPDA] does in the SDK. *)
Definition marketAddress (id : BN) : PublicKey :=
  fst (findProgramAddressSync [MARKET_SEED; leBytes 8 id] programId).

Definition stakeVault (marketPubkey : PublicKey) : PublicKey :=
  fst (getMarketVaultPDA findProgramAddressSync marketPubkey programId).

Definition bonusVault (marketPubkey : PublicKey) : PublicKey :=
  fst (getPoolVaultPDA findProgramAddressSync marketPubkey programId).

Definition betAddress (marketPubkey bettorPubkey : PublicKey) : PublicKey :=
  fst (getBetPDA findProgramAddressSync marketPubkey bettorPubkey programId).

(** Modelled from the spec: the address of the oracle with a given
    identifier, derived from the oracle tag and the four bytes of the
    identifier, as [getOraclePDA] does in the SDK. *)
Definition oracleAddress (id : Z) : PublicKey :=
  fst (findProgramAddressSync [ORACLE_SEED; leBytes 4 id] programId).

Definition licenseAddress (key : list Z) : PublicKey :=
  fst (getLicensePDA findProgramAddressSync key programId).

(** Every bet record sits at the address derived from its own market and
    bettor. *)
Definition betsAddressed (st : LedgerState) : Prop :=
  forall a b, bets st !! a = Some b -> a = betAddress (market b) (bettor b).

(** *** Protocol configuration *)

(** Modelled from the spec: [initialize_protocol] of the on-chain program,
    which creates the singleton [ProtocolState] once. *)
Definition initialize_protocol (caller treasuryWallet : PublicKey) (p c l : Z)
    (st : LedgerState) : result LedgerState :=
  require (bool_decide (protocol st = None)) AccountInUse ;;
  require (validFees p c l) InvalidFeeConfiguration ;;
  Ok (setProtocol
        {| authority := caller; treasury := treasuryWallet;
           protocolFeeBps := p; creatorFeeBps := c; poolFeeBps := l;
           totalMarkets := 0; totalVolume := 0; totalOracles := 0;
           totalLicenses := 0; requireLicense := false |} st).

(** Modelled from the spec: [update_protocol] of the on-chain program, by
    the admin identity only, each parameter optional. *)
Definition update_protocol (caller : PublicKey) (newTreasury : option PublicKey)
    (newProtocolFeeBps newCreatorFeeBps newPoolFeeBps : option Z)
    (newRequireLicense : option bool) (st : LedgerState) : result LedgerState :=
  ps ← fromOption (protocol st) AccountNotFound ;
  require (bool_decide (caller = authority ps)) Unauthorized ;;
  let p := default (protocolFeeBps ps) newProtocolFeeBps in
  let c := default (creatorFeeBps ps) newCreatorFeeBps in
  let l := default (poolFeeBps ps) newPoolFeeBps in
  require (validFees p c l) InvalidFeeConfiguration ;;
  Ok (setProtocol
        (withFees p c l (default (treasury ps) newTreasury)
           (default (requireLicense ps) newRequireLicense) ps) st).

(** *** Oracle registry *)

(** Modelled from the spec: [register_oracle] of the on-chain program. *)
Definition register_oracle (caller : PublicKey) (now : Z) (id : Z)
    (oracleName : string) (cats : list bool) (source : string)
    (oracleWallet : PublicKey) (st : LedgerState) : result LedgerState :=
  ps ← fromOption (protocol st) AccountNotFound ;
  require (bool_decide (caller = authority ps)) Unauthorized ;;
  require ((strlenZ oracleName <=? MAX_ORACLE_NAME_LENGTH) &&
           (strlenZ source <=? MAX_DATA_SOURCE_LENGTH) &&
           (lengthZ cats =? 12)) InvalidArgument ;;
  require (bool_decide (oracles st !! oracleAddress id = None)) AccountInUse ;;
  Ok (putOracle (oracleAddress id)
        {| oracleId := id; oracleAuthority := oracleWallet; name := oracleName;
           categories := cats; dataSource := source; oracleActive := true;
           marketsResolved := 0; registeredAt := now; lastResolutionAt := 0 |}
        (setProtocol
           (withCounters (totalMarkets ps) (totalOracles ps + 1) (totalLicenses ps) ps)
           st)).

(** Modelled from the spec: [update_oracle] of the on-chain program. *)
Definition update_oracle (caller : PublicKey) (id : Z) (newName : option string)
    (newCategories : option (list bool)) (newDataSource : option string)
    (newActive : option bool) (st : LedgerState) : result LedgerState :=
  ps ← fromOption (protocol st) AccountNotFound ;
  require (bool_decide (caller = authority ps)) Unauthorized ;;
  o ← fromOption (oracles st !! oracleAddress id) OracleNotFound ;
  let n := default (name o) newName in
  let cats := default (categories o) newCategories in
  let src := default (dataSource o) newDataSource in
  require ((strlenZ n <=? MAX_ORACLE_NAME_LENGTH) &&
           (strlenZ src <=? MAX_DATA_SOURCE_LENGTH) &&
           (lengthZ cats =? 12)) InvalidArgument ;;
  Ok (putOracle (oracleAddress id)
        (withOracleSettings n cats src (default (oracleActive o) newActive) o) st).

(** Modelled from the spec: [assign_oracle(marketId, oracleId)] of the
    on-chain program. *)
Definition assign_oracle (caller : PublicKey) (id : BN) (oracle_id : Z)
    (eventId : option string) (st : LedgerState) : result LedgerState :=
  m ← fromOption (markets st !! marketAddress id) AccountNotFound ;
  require (bool_decide (caller = creator m)) Unauthorized ;;
  require (bool_decide (status m = Open)) MarketNotOpen ;;
  require (bool_decide (is_Some (oracles st !! oracleAddress oracle_id)))
    OracleNotFound ;;
  Ok (putMarket (marketAddress id)
        (withOracle (Some (oracleAddress oracle_id))
           (match eventId with Some e => Some e | None => oracleEventId m end) m)
        st).

(** *** License registry *)

(** Modelled from the spec: [issue_license] of the on-chain program. *)
Definition issue_license (caller : PublicKey) (now : Z) (key : list Z)
    (type : LicenseType) (licenseHolder : PublicKey)
    (domains : list string) (wallets : list PublicKey)
    (quotaOverride : option (option Z)) (featuresOverride : option LicenseFeatures)
    (transferable : bool) (expiry : BN) (st : LedgerState) : result LedgerState :=
  ps ← fromOption (protocol st) AccountNotFound ;
  require (bool_decide (caller = authority ps)) Unauthorized ;;
  require ((lengthZ key =? 32) &&
           (lengthZ domains <=? MAX_LICENSE_DOMAINS) &&
           forallb (fun d => strlenZ d <=? MAX_DOMAIN_NAME_LENGTH) domains &&
           (lengthZ wallets <=? MAX_LICENSE_WALLETS)) InvalidArgument ;;
  require (bool_decide (licenses st !! licenseAddress key = None)) AccountInUse ;;
  let quota :=
    match type, quotaOverride with
    | Custom, Some q => q
    | _, _ => defaultMaxMarkets type
    end in
  let feats :=
    match type, featuresOverride with
    | Custom, Some f => f
    | _, _ => defaultFeatures type
    end in
  Ok (putLicense (licenseAddress key)
        {| licenseKey := key; holder := licenseHolder; licenseType := type;
           features := feats; allowedDomains := domains; allowedWallets := wallets;
           maxMarkets := quota; marketsCreated := 0; isActive := true;
           isTransferable := transferable; issuedAt := now; expiresAt := expiry;
           lastUsedAt := 0; issuedBy := caller |}
        (setProtocol
           (withCounters (totalMarkets ps) (totalOracles ps) (totalLicenses ps + 1) ps)
           st)).

(** An edit of a license by the protocol admin. *)
Definition adminLicenseEdit (caller : PublicKey) (key : list Z)
    (edit : License -> License) (st : LedgerState) : result LedgerState :=
  ps ← fromOption (protocol st) AccountNotFound ;
  require (bool_decide (caller = authority ps)) Unauthorized ;;
  lic ← fromOption (licenses st !! licenseAddress key) AccountNotFound ;
  Ok (putLicense (licenseAddress key) (edit lic) st).

(** Modelled from the spec: [activate_license] and [revoke_license] of the
    on-chain program, which flip [isActive]. *)
Definition set_license_active (active : bool) (caller : PublicKey) (key : list Z)
    (st : LedgerState) : result LedgerState :=
  adminLicenseEdit caller key
    (fun lic =>
       withLicenseSettings (holder lic) (features lic) (allowedDomains lic)
         (allowedWallets lic) (maxMarkets lic) active (isTransferable lic)
         (expiresAt lic) lic) st.

Definition activate_license := set_license_active true.
Definition revoke_license := set_license_active false.

(** Modelled from the spec: [update_license] of the on-chain program. *)
Definition update_license (caller : PublicKey) (key : list Z)
    (newFeatures : option LicenseFeatures) (newQuota : option (option Z))
    (newExpiry : option BN) (newTransferable : option bool)
    (st : LedgerState) : result LedgerState :=
  adminLicenseEdit caller key
    (fun lic =>
       withLicenseSettings (holder lic) (default (features lic) newFeatures)
         (allowedDomains lic) (allowedWallets lic)
         (default (maxMarkets lic) newQuota) (isActive lic)
         (default (isTransferable lic) newTransferable)
         (default (expiresAt lic) newExpiry) lic) st.

(** An edit of a license by its holder; [allowed] is the precondition of the
    edit on the license. *)
Definition holderLicenseEdit (caller : PublicKey) (key : list Z)
    (allowed : License -> bool) (e : Error) (edit : License -> License)
    (st : LedgerState) : result LedgerState :=
  lic ← fromOption (licenses st !! licenseAddress key) AccountNotFound ;
  require (bool_decide (caller = holder lic)) Unauthorized ;;
  require (allowed lic) e ;;
  Ok (putLicense (licenseAddress key) (edit lic) st).

(** Modelled from the spec: [transfer_license] of the on-chain program. *)
Definition transfer_license (caller : PublicKey) (key : list Z)
    (newHolder : PublicKey) (st : LedgerState) : result LedgerState :=
  holderLicenseEdit caller key isTransferable Unauthorized
    (fun lic =>
       withLicenseSettings newHolder (features lic) (allowedDomains lic)
         (allowedWallets lic) (maxMarkets lic) (isActive lic) (isTransferable lic)
         (expiresAt lic) lic) st.

Definition withAllowLists (domains : list string) (wallets : list PublicKey)
    (lic : License) : License :=
  withLicenseSettings (holder lic) (features lic) domains wallets
    (maxMarkets lic) (isActive lic) (isTransferable lic) (expiresAt lic) lic.

(** Modelled from the spec: [add_authorized_wallet] and
    [remove_authorized_wallet] of the on-chain program, bounded to ten
    wallets. *)
Definition add_authorized_wallet (caller : PublicKey) (key : list Z)
    (wallet : PublicKey) (st : LedgerState) : result LedgerState :=
  holderLicenseEdit caller key
    (fun lic => lengthZ (allowedWallets lic) <? MAX_LICENSE_WALLETS) InvalidArgument
    (fun lic => withAllowLists (allowedDomains lic) (allowedWallets lic ++ [wallet]) lic)
    st.

Definition remove_authorized_wallet (caller : PublicKey) (key : list Z)
    (wallet : PublicKey) (st : LedgerState) : result LedgerState :=
  holderLicenseEdit caller key (fun _ => true) InvalidArgument
    (fun lic =>
       withAllowLists (allowedDomains lic)
         (List.filter (fun w => negb (bool_decide (w = wallet))) (allowedWallets lic))
         lic)
    st.

(** Modelled from the spec: [add_authorized_domain] and
    [remove_authorized_domain] of the on-chain program, bounded to five
    domains of at most 64 characters. *)
Definition add_authorized_domain (caller : PublicKey) (key : list Z)
    (domain : string) (st : LedgerState) : result LedgerState :=
  holderLicenseEdit caller key
    (fun lic => (lengthZ (allowedDomains lic) <? MAX_LICENSE_DOMAINS) &&
                (strlenZ domain <=? MAX_DOMAIN_NAME_LENGTH)) InvalidArgument
    (fun lic => withAllowLists (allowedDomains lic ++ [domain]) (allowedWallets lic) lic)
    st.

Definition remove_authorized_domain (caller : PublicKey) (key : list Z)
    (domain : string) (st : LedgerState) : result LedgerState :=
  holderLicenseEdit caller key (fun _ => true) InvalidArgument
    (fun lic =>
       withAllowLists
         (List.filter (fun d => negb (bool_decide (d = domain))) (allowedDomains lic))
         (allowedWallets lic) lic)
    st.

(** *** Market accounting *)

Definition lookupOutcome (i : Z) (os : list Outcome) : option Outcome :=
  if 0 <=? i then os !! Z.to_nat i else None.

(** The license gate of [create_market] when licenses are required: the
    decision of [checkLicense] for the creator, the feature flag, and the
    usage recorded on success. *)
Definition useLicense (caller : PublicKey) (now : Z) (key : option (list Z))
    (domain : option string) (st : LedgerState) : result LedgerState :=
  k ← fromOption key LicenseRequired ;
  lic ← fromOption (licenses st !! licenseAddress k) LicenseInvalid ;
  checkLicense lic caller domain now ;;
  require (canCreateMarkets (features lic)) LicenseInvalid ;;
  Ok (putLicense (licenseAddress k) (withUsage (marketsCreated lic + 1) now lic) st).

(** Modelled from the spec: [create_market] of the on-chain program. *)
Definition create_market (caller : PublicKey) (now : Z) (id : BN) (cat : Z)
    (marketTitle marketDescription : string) (stake bettingEnd resolutionEnd : BN)
    (labels : list string) (mint feeWallet : PublicKey) (eventId : option string)
    (key : option (list Z)) (domain : option string)
    (st : LedgerState) : result LedgerState :=
  ps ← fromOption (protocol st) AccountNotFound ;
  require ((now <? bettingEnd) && (bettingEnd <? resolutionEnd)) InvalidDeadline ;;
  require ((2 <=? lengthZ labels) && (lengthZ labels <=? MAX_OUTCOMES))
    InvalidOutcomeCount ;;
  require (forallb (fun l => (1 <=? strlenZ l) && (strlenZ l <=? MAX_OUTCOME_LENGTH))
             labels &&
           (strlenZ marketTitle <=? MAX_TITLE_LENGTH) &&
           (strlenZ marketDescription <=? MAX_DESCRIPTION_LENGTH) &&
           (0 <? stake)) InvalidArgument ;;
  require (bool_decide (markets st !! marketAddress id = None)) AccountInUse ;;
  st1 ← (if requireLicense ps then useLicense caller now key domain st else Ok st) ;
  let a := marketAddress id in
  let bal := <[(bonusVault a, mint) := 0]> (<[(stakeVault a, mint) := 0]> (balances st1)) in
  Ok (putMarket a
        {| marketId := id; creator := caller; creatorFeeWallet := feeWallet;
           tokenMint := mint; category := cat; oracle := None;
           oracleEventId := eventId; title := marketTitle;
           description := marketDescription; betAmount := stake;
           bettingDeadline := bettingEnd; resolutionDeadline := resolutionEnd;
           status := Open; winningOutcome := 0; totalPool := 0; bonusPool := 0;
           outcomes := map (fun l => mkOutcome l 0 0) labels;
           createdAt := now; resolvedAt := 0; resolvedByOracle := false |}
        (setBalances bal
           (setProtocol
              (withCounters (totalMarkets ps + 1) (totalOracles ps) (totalLicenses ps) ps)
              st1))).

(** Modelled from the spec: [place_bet(outcomeIndex)] of the on-chain
    program. The fees are those of the fee engine at the current protocol
    rates; the bonus pool of the market accumulates the pool fees. *)
Definition place_bet (caller : PublicKey) (now : Z) (id : BN) (index : Z)
    (st : LedgerState) : result LedgerState :=
  ps ← fromOption (protocol st) AccountNotFound ;
  let a := marketAddress id in
  m ← fromOption (markets st !! a) AccountNotFound ;
  require (bool_decide (status m = Open)) MarketNotOpen ;;
  require (now <? bettingDeadline m) BettingClosed ;;
  o ← fromOption (lookupOutcome index (outcomes m)) InvalidOutcome ;
  require (bool_decide (bets st !! betAddress a caller = None)) AlreadyBet ;;
  require (betAmount m <=? balanceOf (balances st) caller (tokenMint m))
    InsufficientFunds ;;
  let fees :=
    computeFees (betAmount m)
      (protocolFeeBps ps) (creatorFeeBps ps) (poolFeeBps ps) in
  bal1 ← transfer caller (treasury ps) (protocolFee fees) (tokenMint m) (balances st) ;
  bal2 ← transfer caller (creatorFeeWallet m) (creatorFee fees) (tokenMint m) bal1 ;
  bal3 ← transfer caller (bonusVault a) (poolFee fees) (tokenMint m) bal2 ;
  bal4 ← transfer caller (stakeVault a) (netAmount fees) (tokenMint m) bal3 ;
  let os :=
    <[Z.to_nat index :=
        withStake (totalAmount o + netAmount fees) (bettorCount o + 1) o]>
      (outcomes m) in
  Ok (putBet (betAddress a caller)
        {| market := a; bettor := caller; outcomeIndex := index;
           originalAmount := betAmount m; poolAmount := netAmount fees;
           claimed := false; placedAt := now |}
        (putMarket a
           (withTotals os (totalPool m + netAmount fees) (bonusPool m + poolFee fees) m)
           (setBalances bal4 st))).

(** Modelled from the spec: [withdraw_bet] of the on-chain program. *)
Definition withdraw_bet (caller : PublicKey) (now : Z) (id : BN)
    (st : LedgerState) : result LedgerState :=
  let a := marketAddress id in
  m ← fromOption (markets st !! a) AccountNotFound ;
  require (bool_decide (status m = Open)) MarketNotOpen ;;
  require (now <? bettingDeadline m) BettingClosed ;;
  b ← fromOption (bets st !! betAddress a caller) AccountNotFound ;
  require (negb (claimed b)) AlreadyClaimed ;;
  require (bool_decide (bettor b = caller)) Unauthorized ;;
  o ← fromOption (lookupOutcome (outcomeIndex b) (outcomes m)) InvalidOutcome ;
  bal ← transfer (stakeVault a) caller (poolAmount b) (tokenMint m) (balances st) ;
  amount ← checkedSub (totalAmount o) (poolAmount b) ;
  count ← checkedSub (bettorCount o) 1 ;
  pool ← checkedSub (totalPool m) (poolAmount b) ;
  let os := <[Z.to_nat (outcomeIndex b) := withStake amount count o]> (outcomes m) in
  Ok (putBet (betAddress a caller) (withClaimed b)
        (putMarket a (withTotals os pool (bonusPool m) m) (setBalances bal st))).

(** Modelled from the spec: [resolve_market(winningOutcome)] of the on-chain
    program, the manual path. *)
Definition resolve_market (caller : PublicKey) (now : Z) (id : BN) (winner : Z)
    (st : LedgerState) : result LedgerState :=
  let a := marketAddress id in
  m ← fromOption (markets st !! a) AccountNotFound ;
  require (bool_decide (caller = creator m)) Unauthorized ;;
  require (bool_decide (status m = Open)) MarketNotOpen ;;
  require (bettingDeadline m <=? now) BettingNotClosed ;;
  require (validIndex winner (outcomes m)) InvalidOutcome ;;
  Ok (putMarket a (withResolution Resolved winner now false m) st).

(** Modelled from the spec: [oracle_resolve_market(winningOutcome)] of the
    on-chain program, the automated path. The caller must be the authority of
    the oracle assigned to the market. *)
Definition oracle_resolve_market (caller : PublicKey) (now : Z) (id : BN) (winner : Z)
    (st : LedgerState) : result LedgerState :=
  let a := marketAddress id in
  m ← fromOption (markets st !! a) AccountNotFound ;
  let assigned := oracle m ≫= fun oa => oracles st !! oa in
  require (match assigned with
           | Some o => bool_decide (caller = oracleAuthority o)
           | None => true
           end) Unauthorized ;;
  require (bool_decide (status m = Open)) MarketNotOpen ;;
  require (bettingDeadline m <=? now) BettingNotClosed ;;
  require (validIndex winner (outcomes m)) InvalidOutcome ;;
  oa ← fromOption (oracle m) OracleNotAssigned ;
  o ← fromOption (oracles st !! oa) OracleNotAssigned ;
  require ((0 <=? category m) && nth (Z.to_nat (category m)) (categories o) false)
    OracleCategoryMismatch ;;
  require (oracleActive o) OracleInactive ;;
  Ok (putOracle oa (withResolutionCount (marketsResolved o + 1) now o)
        (putMarket a (withResolution Resolved winner now true m) st)).

(** Modelled from the spec: [cancel_market] of the on-chain program. *)
Definition cancel_market (caller : PublicKey) (id : BN)
    (st : LedgerState) : result LedgerState :=
  let a := marketAddress id in
  m ← fromOption (markets st !! a) AccountNotFound ;
  require (bool_decide (caller = creator m)) Unauthorized ;;
  require (bool_decide (status m = Open)) MarketNotOpen ;;
  Ok (putMarket a (withStatus Cancelled m) st).

(** A payout leaves the escrow of the market: the stake vault first, the
    bonus-pool vault for what the stake vault does not hold. *)
Definition payFromEscrow (marketPubkey to : PublicKey) (amount : Z)
    (asset : PublicKey) (bal : Balances) : result Balances :=
  let fromStake := Z.min amount (balanceOf bal (stakeVault marketPubkey) asset) in
  bal1 ← transfer (stakeVault marketPubkey) to fromStake asset bal ;
  transfer (bonusVault marketPubkey) to (amount - fromStake) asset bal1.

(** Modelled from the spec: [claim_winnings] of the on-chain program. *)
Definition claim_winnings (caller : PublicKey) (id : BN)
    (st : LedgerState) : result LedgerState :=
  let a := marketAddress id in
  m ← fromOption (markets st !! a) AccountNotFound ;
  require (bool_decide (status m = Resolved)) MarketNotResolved ;;
  b ← fromOption (bets st !! betAddress a caller) AccountNotFound ;
  require (outcomeIndex b =? winningOutcome m) WrongOutcome ;;
  require (negb (claimed b)) AlreadyClaimed ;;
  o ← fromOption (lookupOutcome (winningOutcome m) (outcomes m)) InvalidOutcome ;
  let payout :=
    winningsPayout (poolAmount b) (totalPool m) (bonusPool m) (totalAmount o) in
  bal ← payFromEscrow a caller payout (tokenMint m) (balances st) ;
  Ok (putBet (betAddress a caller) (withClaimed b) (setBalances bal st)).

(** Modelled from the spec: [claim_refund] of the on-chain program. *)
Definition claim_refund (caller : PublicKey) (id : BN)
    (st : LedgerState) : result LedgerState :=
  let a := marketAddress id in
  m ← fromOption (markets st !! a) AccountNotFound ;
  require (bool_decide (status m = Cancelled)) MarketNotCancelled ;;
  b ← fromOption (bets st !! betAddress a caller) AccountNotFound ;
  require (negb (claimed b)) AlreadyClaimed ;;
  bal ← transfer (stakeVault a) caller (poolAmount b) (tokenMint m) (balances st) ;
  Ok (putBet (betAddress a caller) (withClaimed b) (setBalances bal st)).

(** *** Calls *)

Inductive Instruction : Type :=
| InitializeProtocol (treasuryWallet : PublicKey) (p c l : Z)
| UpdateProtocol (newTreasury : option PublicKey)
    (newProtocolFeeBps newCreatorFeeBps newPoolFeeBps : option Z)
    (newRequireLicense : option bool)
| RegisterOracle (id : Z) (oracleName : string) (cats : list bool) (source : string)
    (oracleWallet : PublicKey)
| UpdateOracle (id : Z) (newName : option string) (newCategories : option (list bool))
    (newDataSource : option string) (newActive : option bool)
| AssignOracle (id : BN) (oracle_id : Z) (eventId : option string)
| IssueLicense (key : list Z) (type : LicenseType) (licenseHolder : PublicKey)
    (domains : list string) (wallets : list PublicKey)
    (quotaOverride : option (option Z)) (featuresOverride : option LicenseFeatures)
    (transferable : bool) (expiry : BN)
| ActivateLicense (key : list Z)
| RevokeLicense (key : list Z)
| UpdateLicense (key : list Z) (newFeatures : option LicenseFeatures)
    (newQuota : option (option Z)) (newExpiry : option BN)
    (newTransferable : option bool)
| TransferLicense (key : list Z) (newHolder : PublicKey)
| AddAuthorizedWallet (key : list Z) (wallet : PublicKey)
| RemoveAuthorizedWallet (key : list Z) (wallet : PublicKey)
| AddAuthorizedDomain (key : list Z) (domain : string)
| RemoveAuthorizedDomain (key : list Z) (domain : string)
| CreateMarket (id : BN) (cat : Z) (marketTitle marketDescription : string)
    (stake bettingEnd resolutionEnd : BN) (labels : list string)
    (mint feeWallet : PublicKey) (eventId : option string)
    (key : option (list Z)) (domain : option string)
| PlaceBet (id : BN) (index : Z)
| WithdrawBet (id : BN)
| ResolveMarket (id : BN) (winner : Z)
| OracleResolveMarket (id : BN) (winner : Z)
| CancelMarket (id : BN)
| ClaimWinnings (id : BN)
| ClaimRefund (id : BN).

(** A call: the instruction, the caller identity the host has authenticated
    and the time the host supplies. *)
Record Call : Type := mkCall {
  caller : PublicKey;
  now : Z;
  instruction : Instruction
}.

Definition exec (c : Call) (st : LedgerState) : result LedgerState :=
  let who := caller c in
  let t := now c in
  match instruction c with
  | InitializeProtocol w p cr l => initialize_protocol who w p cr l st
  | UpdateProtocol w p cr l r => update_protocol who w p cr l r st
  | RegisterOracle id n cats src w => register_oracle who t id n cats src w st
  | UpdateOracle id n cats src act => update_oracle who id n cats src act st
  | AssignOracle id oid ev => assign_oracle who id oid ev st
  | IssueLicense k ty h ds ws q f tr ex =>
      issue_license who t k ty h ds ws q f tr ex st
  | ActivateLicense k => activate_license who k st
  | RevokeLicense k => revoke_license who k st
  | UpdateLicense k f q ex tr => update_license who k f q ex tr st
  | TransferLicense k h => transfer_license who k h st
  | AddAuthorizedWallet k w => add_authorized_wallet who k w st
  | RemoveAuthorizedWallet k w => remove_authorized_wallet who k w st
  | AddAuthorizedDomain k d => add_authorized_domain who k d st
  | RemoveAuthorizedDomain k d => remove_authorized_domain who k d st
  | CreateMarket id cat ti de stake be re labels mint fw ev k d =>
      create_market who t id cat ti de stake be re labels mint fw ev k d st
  | PlaceBet id i => place_bet who t id i st
  | WithdrawBet id => withdraw_bet who t id st
  | ResolveMarket id w => resolve_market who t id w st
  | OracleResolveMarket id w => oracle_resolve_market who t id w st
  | CancelMarket id => cancel_market who id st
  | ClaimWinnings id => claim_winnings who id st
  | ClaimRefund id => claim_refund who id st
  end.

(** The ledger after a call: the new ledger when the call succeeds, the
    ledger as it was when it fails. *)
Definition step (c : Call) (st : LedgerState) : LedgerState :=
  match exec c st with
  | Ok st' => st'
  | Err _ => st
  end.

Definition run (calls : list Call) (st : LedgerState) : LedgerState :=
  fold_left (fun s c => step c s) calls st.

End Instructions.

End Ledger.

(** ** Scenarios

    Concrete ledgers for the scenarios of the specification and of the
    integration tests (tests/fortuna-protocol.ts). The address derivation
    used to run them spells out the program id and the seeds, so that the
    addresses of the scenarios are distinct. *)

Module Scenario.
Import Constants PDA Records Fees Ledger.

Definition deriveAddress (seeds : list string) (pid : PublicKey) : PublicKey * Z :=
  (mkPublicKey (String.concat "/" (toBuffer pid :: seeds)), 255).

Definition fortuna : PublicKey := mkPublicKey "Fortuna".

Definition authorityKey : PublicKey := mkPublicKey "authority".
Definition treasuryKey : PublicKey := mkPublicKey "treasury".
Definition creatorKey : PublicKey := mkPublicKey "creator".
Definition bettor1 : PublicKey := mkPublicKey "bettor1".
Definition bettor2 : PublicKey := mkPublicKey "bettor2".
Definition usdc : PublicKey := mkPublicKey "usdc".

Definition BET_AMOUNT : BN := 10000000.

(** Each bettor holds 100 USDC; nothing else exists yet. *)
Definition funded : LedgerState :=
  setBalances
    (<[(bettor1, usdc) := 100000000]> (<[(bettor2, usdc) := 100000000]> ∅))
    emptyLedger.

Definition createYesNo (id : BN) (marketTitle marketDescription : string) : Call :=
  mkCall creatorKey 0
    (CreateMarket id 3 marketTitle marketDescription BET_AMOUNT 86400 172800
       ["Yes"; "No"] usdc creatorKey None None None).

(** Scenario B: fees (50, 50, 500), market 1 with two outcomes, one bet on
    each, resolution in favour of outcome 0. *)
Definition scenarioB : list Call :=
  [ mkCall authorityKey 0 (InitializeProtocol treasuryKey 50 50 500);
    createYesNo 1 "Will BTC reach $100k?" "Bitcoin price prediction market";
    mkCall bettor1 10 (PlaceBet 1 0);
    mkCall bettor2 20 (PlaceBet 1 1);
    mkCall creatorKey 86400 (ResolveMarket 1 0) ].

Definition resolved : LedgerState := run deriveAddress fortuna scenarioB funded.

Definition market1 : PublicKey := marketAddress deriveAddress fortuna 1.

Definition resolvedMarket : Market :=
  {| marketId := 1; creator := creatorKey; creatorFeeWallet := creatorKey;
     tokenMint := usdc; category := 3; oracle := None; oracleEventId := None;
     title := "Will BTC reach $100k?";
     description := "Bitcoin price prediction market";
     betAmount := 10000000; bettingDeadline := 86400; resolutionDeadline := 172800;
     status := Resolved; winningOutcome := 0;
     totalPool := 18800000; bonusPool := 1000000;
     outcomes := [mkOutcome "Yes" 9400000 1; mkOutcome "No" 9400000 1];
     createdAt := 0; resolvedAt := 86400; resolvedByOracle := false |}.

Definition winningBet : Bet :=
  {| market := market1; bettor := bettor1; outcomeIndex := 0;
     originalAmount := 10000000; poolAmount := 9400000; claimed := false;
     placedAt := 10 |}.

(** The ledger after the winner has claimed. *)
Definition settled : LedgerState :=
  step deriveAddress fortuna (mkCall bettor1 86500 (ClaimWinnings 1)) resolved.

(** The cancellation scenario of the tests: market 100 is created, takes a
    bet and is cancelled by its creator; the bettor claims the refund. *)
Definition cancellation : list Call :=
  [ mkCall authorityKey 0 (InitializeProtocol treasuryKey 50 50 500);
    createYesNo 100 "Market to Cancel" "This market will be cancelled";
    mkCall bettor1 10 (PlaceBet 100 0);
    mkCall creatorKey 20 (CancelMarket 100) ].

Definition cancelled : LedgerState := run deriveAddress fortuna cancellation funded.

Definition market100 : PublicKey := marketAddress deriveAddress fortuna 100.

Definition cancelledMarket : Market :=
  {| marketId := 100; creator := creatorKey; creatorFeeWallet := creatorKey;
     tokenMint := usdc; category := 3; oracle := None; oracleEventId := None;
     title := "Market to Cancel";
     description := "This market will be cancelled";
     betAmount := 10000000; bettingDeadline := 86400; resolutionDeadline := 172800;
     status := Cancelled; winningOutcome := 0;
     totalPool := 9400000; bonusPool := 500000;
     outcomes := [mkOutcome "Yes" 9400000 1; mkOutcome "No" 0 0];
     createdAt := 0; resolvedAt := 0; resolvedByOracle := false |}.

Definition refunded : LedgerState :=
  step deriveAddress fortuna (mkCall bettor1 30 (ClaimRefund 100)) cancelled.

Definition refundedBet : Bet :=
  {| market := market100; bettor := bettor1; outcomeIndex := 0;
     originalAmount := 10000000; poolAmount := 9400000; claimed := true;
     placedAt := 10 |}.

(** Market 1 while it is open, with the bet of the first bettor only. *)
Definition betting : LedgerState :=
  run deriveAddress fortuna (firstn 3 scenarioB) funded.

Definition openMarket : Market :=
  {| marketId := 1; creator := creatorKey; creatorFeeWallet := creatorKey;
     tokenMint := usdc; category := 3; oracle := None; oracleEventId := None;
     title := "Will BTC reach $100k?";
     description := "Bitcoin price prediction market";
     betAmount := 10000000; bettingDeadline := 86400; resolutionDeadline := 172800;
     status := Open; winningOutcome := 0;
     totalPool := 9400000; bonusPool := 500000;
     outcomes := [mkOutcome "Yes" 9400000 1; mkOutcome "No" 0 0];
     createdAt := 0; resolvedAt := 0; resolvedByOracle := false |}.

Definition protocolB : ProtocolState :=
  {| authority := authorityKey; treasury := treasuryKey;
     protocolFeeBps := 50; creatorFeeBps := 50; poolFeeBps := 500;
     totalMarkets := 1; totalVolume := 0; totalOracles := 0; totalLicenses := 0;
     requireLicense := false |}.

End Scenario.

(** ** Category names (sdk/src/constants.ts) *)

Module CategoryNames.
Import Categories.

Definition Politics : MarketCategory := 0.
Definition Sports : MarketCategory := 1.
Definition Finance : MarketCategory := 2.
Definition Crypto : MarketCategory := 3.
Definition Geopolitics : MarketCategory := 4.
Definition Earnings : MarketCategory := 5.
Definition Tech : MarketCategory := 6.
Definition Culture : MarketCategory := 7.
Definition World : MarketCategory := 8.
Definition Economy : MarketCategory := 9.
Definition Elections : MarketCategory := 10.
Definition Mentions : MarketCategory := 11.

Definition CATEGORY_NAMES : gmap Z string :=
  list_to_map
    [ (Politics, "Politics"); (Sports, "Sports"); (Finance, "Finance");
      (Crypto, "Crypto"); (Geopolitics, "Geopolitics"); (Earnings, "Earnings");
      (Tech, "Tech"); (Culture, "Culture"); (World, "World");
      (Economy, "Economy"); (Elections, "Elections"); (Mentions, "Mentions") ].

(** [CATEGORY_NAMES[category] || 'Unknown']: a missing key reads as
    [undefined], which is falsy, as is the empty string. *)
Definition getCategoryName (category : MarketCategory) : string :=
  match CATEGORY_NAMES !! category with
  | Some EmptyString => "Unknown"
  | Some s => s
  | None => "Unknown"
  end.

Definition getAllCategories : list MarketCategory :=
  [ Politics; Sports; Finance; Crypto; Geopolitics; Earnings; Tech; Culture;
    World; Economy; Elections; Mentions ].

End CategoryNames.

(** * Properties *)

(** * Properties of the fee engine *)

Module FeesSpec.
Import Constants Fees.

(** *** The conversions *)

Lemma safeNumber_bound n : safeNumber n <-> - 9007199254740992 < n < 9007199254740992.
Proof. unfold safeNumber. change (2 ^ 53) with 9007199254740992. lia. Qed.

Ltac safe := rewrite ?safeNumber_bound in *; unfold BPS_DENOMINATOR, MAX_TOTAL_FEE_BPS in *;
  change (2 ^ 53) with 9007199254740992 in *; lia.

Lemma newBN_safe n : safeNumber n -> newBN n = Some n.
Proof.
  unfold safeNumber, newBN. intros H.
  destruct (Z.ltb_spec (Z.abs n) (2 ^ 53)); [reflexivity | lia].
Qed.

Lemma newBN_unsafe n : ~ safeNumber n -> newBN n = None.
Proof.
  unfold safeNumber, newBN. intros H.
  destruct (Z.ltb_spec (Z.abs n) (2 ^ 53)); [contradiction | reflexivity].
Qed.

Lemma safeNumber_dec n : {safeNumber n} + {~ safeNumber n}.
Proof. unfold safeNumber. destruct (Z_lt_dec (Z.abs n) (2 ^ 53)); [left | right]; assumption. Qed.

Lemma converts_dec x : {converts x} + {~ converts x}.
Proof. destruct x as [b | n]; cbn; [left; exact I | apply safeNumber_dec]. Qed.

Lemma toBN_converts x : converts x -> toBN x = Some (valueOf x).
Proof. destruct x as [b | n]; cbn; [reflexivity | apply newBN_safe]. Qed.

Lemma toBN_refuses x : ~ converts x -> toBN x = None.
Proof. destruct x as [b | n]; cbn; [tauto | apply newBN_unsafe]. Qed.

(** When its conversions succeed, [calculateFees] returns the breakdown of
    the specification on the integer the amount stands for; it throws in all
    other cases. *)
Lemma calculateFees_returns amount p c l :
  converts amount -> safeNumber p -> safeNumber c -> safeNumber l ->
  calculateFees amount p c l = Some (computeFees (valueOf amount) p c l).
Proof.
  intros Ha Hp Hc Hl. unfold calculateFees.
  rewrite (toBN_converts amount Ha), (newBN_safe p Hp), (newBN_safe c Hc),
    (newBN_safe l Hl).
  reflexivity.
Qed.

Lemma calculateFees_refuses amount p c l :
  ~ (converts amount /\ safeNumber p /\ safeNumber c /\ safeNumber l) ->
  calculateFees amount p c l = None.
Proof.
  intros H. unfold calculateFees.
  destruct (converts_dec amount) as [Ha | Ha];
    [rewrite (toBN_converts amount Ha) | rewrite (toBN_refuses amount Ha); reflexivity].
  destruct (safeNumber_dec l) as [Hl | Hl];
    [rewrite (newBN_safe l Hl) | rewrite (newBN_unsafe l Hl); reflexivity].
  destruct (safeNumber_dec c) as [Hc | Hc];
    [rewrite (newBN_safe c Hc) | rewrite (newBN_unsafe c Hc); reflexivity].
  destruct (safeNumber_dec p) as [Hp | Hp];
    [tauto | rewrite (newBN_unsafe p Hp); reflexivity].
Qed.

Lemma calculatePotentialWinnings_returns bet outcomeTotal pool bonus p c l :
  converts bet -> converts outcomeTotal -> converts pool -> converts bonus ->
  safeNumber p -> safeNumber c -> safeNumber l ->
  calculatePotentialWinnings bet outcomeTotal pool bonus p c l =
  Some (shareRule (netAmount (computeFees (valueOf bet) p c l))
          (valueOf outcomeTotal) (valueOf pool) (valueOf bonus)).
Proof.
  intros Hb Ho Ht Hbo Hp Hc Hl. unfold calculatePotentialWinnings, shareRule.
  rewrite (calculateFees_returns bet p c l Hb Hp Hc Hl),
    (toBN_converts _ Ho), (toBN_converts _ Ht), (toBN_converts _ Hbo).
  cbn [mbind option_bind].
  destruct (Z.eqb_spec
    (valueOf outcomeTotal + netAmount (computeFees (valueOf bet) p c l)) 0)
    as [E | E]; case_decide; try reflexivity; contradiction.
Qed.

Lemma calculatePotentialWinnings_refuses bet outcomeTotal pool bonus p c l :
  ~ (converts bet /\ converts outcomeTotal /\ converts pool /\ converts bonus /\
     safeNumber p /\ safeNumber c /\ safeNumber l) ->
  calculatePotentialWinnings bet outcomeTotal pool bonus p c l = None.
Proof.
  intros H. unfold calculatePotentialWinnings.
  destruct (calculateFees bet p c l) as [fees |] eqn:Efees; [| reflexivity].
  assert (Hfees : converts bet /\ safeNumber p /\ safeNumber c /\ safeNumber l).
  { destruct (converts_dec bet); destruct (safeNumber_dec p);
      destruct (safeNumber_dec c); destruct (safeNumber_dec l); try tauto;
      rewrite calculateFees_refuses in Efees by tauto; discriminate Efees. }
  cbn [mbind option_bind].
  destruct (converts_dec outcomeTotal) as [Ho | Ho];
    [rewrite (toBN_converts _ Ho) | rewrite (toBN_refuses _ Ho); reflexivity].
  destruct (converts_dec pool) as [Ht | Ht];
    [rewrite (toBN_converts _ Ht) | rewrite (toBN_refuses _ Ht); reflexivity].
  destruct (converts_dec bonus) as [Hbo | Hbo];
    [tauto | rewrite (toBN_refuses _ Hbo); reflexivity].
Qed.

(** *** The breakdown *)

Lemma computeFees_netAmount amount p c l :
  let f := computeFees amount p c l in
  netAmount f = amount - (poolFee f + creatorFee f + protocolFee f).
Proof. reflexivity. Qed.

(** On a non-negative numerator the truncating division of bn.js is the
    floor. *)
Lemma bps_quot_floor amount bps :
  0 <= amount -> 0 <= bps ->
  Z.quot (amount * bps) BPS_DENOMINATOR = (amount * bps) / BPS_DENOMINATOR.
Proof.
  intros Ha Hb. apply Z.quot_div_nonneg; [nia | reflexivity].
Qed.

(** C1, as stated, fails: an amount that is a positive integer, passed as
    a [number], makes [calculateFees] throw from [2 ^ 53] on. *)
Lemma calculateFees_unsafe_amount :
  50 + 50 + 500 <= MAX_TOTAL_FEE_BPS /\ 0 < 2 ^ 53 /\
  calculateFees (IsNumber (2 ^ 53)) 50 50 500 = None.
Proof. split; [| split]; [vm_compute; discriminate | reflexivity | reflexivity]. Qed.

(** C1, amended. For every bps triple whose sum is at most 1000 and every
    positive amount passed as a [BN], or as a [number] below [2 ^ 53], the
    components returned by [calculateFees] add up to the amount:
    [poolFee + creatorFee + protocolFee + netAmount = amount]. A [number]
    from [2 ^ 53] on is refused. *)
Theorem calculateFees_conservation
    (amount protocolFeeBps creatorFeeBps poolFeeBps : Z) :
  0 <= protocolFeeBps -> 0 <= creatorFeeBps -> 0 <= poolFeeBps ->
  protocolFeeBps + creatorFeeBps + poolFeeBps <= MAX_TOTAL_FEE_BPS ->
  0 < amount ->
  (exists f,
      calculateFees (IsBN amount) protocolFeeBps creatorFeeBps poolFeeBps = Some f /\
      poolFee f + creatorFee f + protocolFee f + netAmount f = amount) /\
  (amount < 2 ^ 53 ->
   exists f,
      calculateFees (IsNumber amount) protocolFeeBps creatorFeeBps poolFeeBps =
        Some f /\
      poolFee f + creatorFee f + protocolFee f + netAmount f = amount) /\
  (2 ^ 53 <= amount ->
   calculateFees (IsNumber amount) protocolFeeBps creatorFeeBps poolFeeBps = None).
Proof.
  intros Hp Hc Hl Hsum Ha.
  assert (Sp : safeNumber protocolFeeBps) by safe.
  assert (Sc : safeNumber creatorFeeBps) by safe.
  assert (Sl : safeNumber poolFeeBps) by safe.
  split; [| split].
  - eexists. split; [apply calculateFees_returns; [exact I | assumption ..] |].
    rewrite computeFees_netAmount. cbn [valueOf]. lia.
  - intros Hsafe. eexists.
    split; [apply calculateFees_returns; [cbn; safe | assumption ..] |].
    rewrite computeFees_netAmount. cbn [valueOf]. lia.
  - intros Hunsafe. apply calculateFees_refuses. cbn [converts]. intros [H _].
    revert H. safe.
Qed.

Lemma calculateFees_conservation_witness :
  exists f,
    calculateFees (IsNumber 10000000) 50 50 500 = Some f /\
    poolFee f + creatorFee f + protocolFee f + netAmount f = 10000000.
Proof.
  refine (proj1 (proj2 (calculateFees_conservation 10000000 50 50 500 _ _ _ _ _)) _);
    vm_compute; first [discriminate | reflexivity].
Defined.

(** C2, as stated, fails: a non-negative integer amount passed as a
    [number] from [2 ^ 53] on has no fee components, [calculateFees] throws. *)
Lemma calculateFees_unsafe_components :
  0 <= 2 ^ 60 /\ calculateFees (IsNumber (2 ^ 60)) 50 50 500 = None.
Proof. split; [vm_compute; discriminate | reflexivity]. Qed.

(** C2, amended. For a non-negative amount passed as a [BN], or as a
    [number] below [2 ^ 53], and basis-point values below [2 ^ 53], each fee
    is the floor [floor (amount * bps / 10000)], each division taken on its
    own, and [netAmount] is the amount minus the three fees; on any other
    number [calculateFees] throws. On 10,000,000 with bps (50, 50, 500) the
    fees are 50,000, 50,000 and 500,000 and the net amount is 9,400,000. *)
Theorem calculateFees_floor_components :
  (forall (amount : BNOrNumber) (protocolFeeBps creatorFeeBps poolFeeBps : Z),
      converts amount -> 0 <= valueOf amount ->
      0 <= protocolFeeBps < 2 ^ 53 -> 0 <= creatorFeeBps < 2 ^ 53 ->
      0 <= poolFeeBps < 2 ^ 53 ->
      exists f,
        calculateFees amount protocolFeeBps creatorFeeBps poolFeeBps = Some f /\
        protocolFee f = (valueOf amount * protocolFeeBps) / 10000 /\
        creatorFee f = (valueOf amount * creatorFeeBps) / 10000 /\
        poolFee f = (valueOf amount * poolFeeBps) / 10000 /\
        netAmount f = valueOf amount - (protocolFee f + creatorFee f + poolFee f)) /\
  (forall (amount : BNOrNumber) (protocolFeeBps creatorFeeBps poolFeeBps : Z),
      ~ (converts amount /\ safeNumber protocolFeeBps /\ safeNumber creatorFeeBps /\
         safeNumber poolFeeBps) ->
      calculateFees amount protocolFeeBps creatorFeeBps poolFeeBps = None) /\
  calculateFees (IsBN 10000000) 50 50 500 =
    Some {| poolFee := 500000; creatorFee := 50000; protocolFee := 50000;
            netAmount := 9400000; totalFees := 600000 |} /\
  calculateFees (IsNumber 10000000) 50 50 500 =
    Some {| poolFee := 500000; creatorFee := 50000; protocolFee := 50000;
            netAmount := 9400000; totalFees := 600000 |}.
Proof.
  split; [| split; [| split; reflexivity]].
  - intros amount p c l Hconv Ha Hp Hc Hl. eexists.
    split; [apply calculateFees_returns; [assumption | safe ..] |].
    repeat split;
      [apply bps_quot_floor; lia .. | rewrite computeFees_netAmount; lia].
  - intros amount p c l H. apply calculateFees_refuses. exact H.
Qed.

Lemma calculateFees_floor_components_witness :
  exists f,
    calculateFees (IsNumber 12345) 50 50 500 = Some f /\
    protocolFee f = (12345 * 50) / 10000 /\
    creatorFee f = (12345 * 50) / 10000 /\
    poolFee f = (12345 * 500) / 10000 /\
    netAmount f = 12345 - (protocolFee f + creatorFee f + poolFee f).
Proof.
  refine (proj1 calculateFees_floor_components (IsNumber 12345) 50 50 500 _ _ _ _ _);
    vm_compute; first [reflexivity | discriminate | split; first [reflexivity | discriminate]].
Defined.

(** C3, as stated, fails: with a total pool passed as a [number] from
    [2 ^ 53] on, [calculatePotentialWinnings] returns nothing, it throws. *)
Lemma calculatePotentialWinnings_unsafe_total :
  calculatePotentialWinnings (IsBN 10000000) (IsBN 9400000) (IsNumber (2 ^ 53))
    (IsBN 1000000) 50 50 500 = None.
Proof. reflexivity. Qed.

(** C3, amended. On amounts passed as [BN]s, or as [number]s below
    [2 ^ 53], and basis-point values below [2 ^ 53], [calculatePotentialWinnings]
    returns
    [netAmount * (totalPool + bonusPool + netAmount) / (outcomeTotalBeforeBet + netAmount)]
    with truncating division, [netAmount] being the net amount the fee engine
    gives for the bet, and returns the whole distributable amount
    [totalPool + bonusPool + netAmount] when the denominator is zero; on any
    other number it throws. *)
Theorem calculatePotentialWinnings_share :
  (forall (betAmount outcomeTotalBeforeBet totalPool bonusPool : BNOrNumber)
          (protocolFeeBps creatorFeeBps poolFeeBps : Z),
      converts betAmount -> converts outcomeTotalBeforeBet ->
      converts totalPool -> converts bonusPool ->
      safeNumber protocolFeeBps -> safeNumber creatorFeeBps ->
      safeNumber poolFeeBps ->
      exists fees winnings,
        calculateFees betAmount protocolFeeBps creatorFeeBps poolFeeBps =
          Some fees /\
        calculatePotentialWinnings betAmount outcomeTotalBeforeBet totalPool
          bonusPool protocolFeeBps creatorFeeBps poolFeeBps = Some winnings /\
        let net := netAmount fees in
        (valueOf outcomeTotalBeforeBet + net <> 0 ->
         winnings =
           Z.quot (net * (valueOf totalPool + valueOf bonusPool + net))
                  (valueOf outcomeTotalBeforeBet + net)) /\
        (valueOf outcomeTotalBeforeBet + net = 0 ->
         winnings = valueOf totalPool + valueOf bonusPool + net)) /\
  (forall (betAmount outcomeTotalBeforeBet totalPool bonusPool : BNOrNumber)
          (protocolFeeBps creatorFeeBps poolFeeBps : Z),
      ~ (converts betAmount /\ converts outcomeTotalBeforeBet /\
         converts totalPool /\ converts bonusPool /\
         safeNumber protocolFeeBps /\ safeNumber creatorFeeBps /\
         safeNumber poolFeeBps) ->
      calculatePotentialWinnings betAmount outcomeTotalBeforeBet totalPool
        bonusPool protocolFeeBps creatorFeeBps poolFeeBps = None).
Proof.
  split.
  - intros bet outcomeTotal pool bonus p c l Hb Ho Ht Hbo Hp Hc Hl.
    exists (computeFees (valueOf bet) p c l). eexists.
    split; [apply calculateFees_returns; assumption |].
    split; [apply calculatePotentialWinnings_returns; assumption |].
    cbv zeta. unfold shareRule.
    split; intros H; case_decide; try reflexivity; contradiction.
  - intros bet outcomeTotal pool bonus p c l H.
    apply calculatePotentialWinnings_refuses. exact H.
Qed.

Lemma calculatePotentialWinnings_share_witness :
  exists fees winnings,
    calculateFees (IsNumber 10000000) 50 50 500 = Some fees /\
    calculatePotentialWinnings (IsNumber 10000000) (IsBN 9400000) (IsBN 18800000)
      (IsBN 1000000) 50 50 500 = Some winnings /\
    let net := netAmount fees in
    (9400000 + net <> 0 ->
     winnings = Z.quot (net * (18800000 + 1000000 + net)) (9400000 + net)) /\
    (9400000 + net = 0 -> winnings = 18800000 + 1000000 + net).
Proof.
  refine (proj1 calculatePotentialWinnings_share (IsNumber 10000000) (IsBN 9400000)
            (IsBN 18800000) (IsBN 1000000) 50 50 500 _ _ _ _ _ _ _);
    vm_compute; first [exact I | reflexivity].
Defined.

End FeesSpec.

(** * Properties of the amount formatting *)

Module AmountsSpec.
Import JSString BNText Amounts.











Lemma split_no_sep sep s :
  Forall (fun c => Ascii.eqb c sep = false) s -> split sep s = [s].
Proof.
  induction 1 as [| c s Hc _ IH]; [reflexivity |].
  cbn [split]. rewrite Hc, IH. reflexivity.
Qed.

Lemma split_at_sep sep s t :
  Forall (fun c => Ascii.eqb c sep = false) s ->
  split sep (s ++ sep :: t) = s :: split sep t.
Proof.
  induction 1 as [| c s Hc _ IH]; cbn [split app].
  - rewrite Ascii.eqb_refl. reflexivity.
  - rewrite Hc, IH. reflexivity.
Qed.












End AmountsSpec.

(** * Properties of the category vectors *)

Module CategoriesSpec.
Import Categories.

Lemma inRangeb_spec cat : reflect (inRange cat) (inRangeb cat).
Proof.
  apply iff_reflect. unfold inRange, inRangeb.
  rewrite andb_true_iff, Z.leb_le, Z.ltb_lt. reflexivity.
Qed.

Lemma categoriesToBoolArray_fold cats :
  categoriesToBoolArray cats = fold_left mark cats (replicate 12 false).
Proof. reflexivity. Qed.

Lemma mark_length result cat : length (mark result cat) = length result.
Proof. unfold mark. destruct (_ && _); [apply length_insert | reflexivity]. Qed.

Lemma fold_mark_length cats result :
  length (fold_left mark cats result) = length result.
Proof.
  revert result. induction cats as [| c cats IH]; intros result; cbn; [reflexivity |].
  rewrite IH. apply mark_length.
Qed.

Lemma mark_nth result cat i :
  (i < length result)%nat -> (length result <= 12)%nat ->
  nth i (mark result cat) false = true <->
  nth i result false = true \/ cat = Z.of_nat i.
Proof.
  intros Hi Hlen. unfold mark. fold (inRangeb cat).
  destruct (inRangeb_spec cat) as [Hc | Hc].
  - unfold inRange in Hc.
    rewrite nth_lookup, list_lookup_insert. case_decide as Hd.
    + destruct Hd as [<- _]. cbn. split; [right; lia | reflexivity].
    + rewrite <- nth_lookup.
      split; [tauto | intros [H | ->]; [exact H |]].
      exfalso. apply Hd. lia.
  - split; [tauto | intros [H | ->]; [exact H |]].
    exfalso. apply Hc. unfold inRange. lia.
Qed.

Lemma fold_mark_nth cats result i :
  (i < length result)%nat -> (length result <= 12)%nat ->
  nth i (fold_left mark cats result) false = true <->
  nth i result false = true \/ In (Z.of_nat i) cats.
Proof.
  revert result. induction cats as [| c cats IH]; intros result Hi Hlen; cbn.
  - tauto.
  - rewrite IH by (rewrite mark_length; assumption).
    rewrite mark_nth by assumption. tauto.
Qed.

(** Slot [i] of the vector is set exactly when [i] occurs in the input. *)
Lemma categoriesToBoolArray_nth cats i :
  (i < 12)%nat ->
  nth i (categoriesToBoolArray cats) false = true <-> In (Z.of_nat i) cats.
Proof.
  intros Hi. rewrite categoriesToBoolArray_fold, fold_mark_nth.
  - split; [intros [H | H]; [| exact H] | tauto].
    rewrite nth_lookup, lookup_replicate_2 in H by exact Hi. discriminate H.
  - rewrite length_replicate. exact Hi.
  - rewrite length_replicate. lia.
Qed.

Lemma categoriesToBoolArray_length cats :
  length (categoriesToBoolArray cats) = 12%nat.
Proof.
  rewrite categoriesToBoolArray_fold, fold_mark_length. apply length_replicate.
Qed.

Lemma fold_mark_filter cats result :
  fold_left mark cats result = fold_left mark (List.filter inRangeb cats) result.
Proof.
  revert result. induction cats as [| c cats IH]; intros result; cbn; [reflexivity |].
  destruct (inRangeb c) eqn:E; cbn.
  - apply IH.
  - unfold mark at 2. fold (inRangeb c). rewrite E. apply IH.
Qed.

(** The loop of [boolArrayToCategories] keeps the indices whose slot is
    set, in the order it visits them. *)
Lemma fold_push (boolArray : list bool) idxs acc :
  fold_left
    (fun categories i =>
       if nth i boolArray false then categories ++ [Z.of_nat i] else categories)
    idxs acc =
  acc ++ map Z.of_nat (List.filter (fun i => nth i boolArray false) idxs).
Proof.
  revert acc. induction idxs as [| i idxs IH]; intros acc; cbn.
  - symmetry. apply app_nil_r.
  - rewrite IH. destruct (nth i boolArray false); cbn; [| reflexivity].
    rewrite <- app_assoc. reflexivity.
Qed.

Lemma boolArrayToCategories_filter boolArray :
  boolArrayToCategories boolArray =
  map Z.of_nat
    (List.filter (fun i => nth i boolArray false)
       (seq 0 (Nat.min (length boolArray) 12))).
Proof. unfold boolArrayToCategories. apply fold_push. Qed.

Lemma seq_StronglySorted a n : StronglySorted lt (seq a n).
Proof.
  revert a. induction n as [| n IH]; intros a; cbn; constructor; [apply IH |].
  apply Forall_forall. intros x Hx. apply list_elem_of_In, in_seq in Hx. lia.
Qed.

Lemma filter_StronglySorted {A} (R : relation A) f l :
  StronglySorted R l -> StronglySorted R (List.filter f l).
Proof.
  induction 1 as [| a l _ IH Ha]; cbn; [constructor |].
  destruct (f a); [| exact IH]. constructor; [exact IH |].
  apply Forall_forall. intros x Hx. apply list_elem_of_In, filter_In in Hx.
  rewrite Forall_forall in Ha. apply Ha, list_elem_of_In. tauto.
Qed.

Lemma boolArrayToCategories_sorted boolArray :
  StronglySorted Z.lt (boolArrayToCategories boolArray).
Proof.
  rewrite boolArrayToCategories_filter.
  apply (StronglySorted_fmap Z.of_nat lt Z.lt).
  - intros x y Hxy. lia.
  - apply filter_StronglySorted, seq_StronglySorted.
Qed.

(** The members of the round trip are the members of the input that lie
    in [0, 12). *)
Lemma roundtrip_members cats x :
  In x (boolArrayToCategories (categoriesToBoolArray cats)) <->
  inRange x /\ In x cats.
Proof.
  rewrite boolArrayToCategories_filter, categoriesToBoolArray_length.
  rewrite in_map_iff. split.
  - intros (i & <- & Hi). apply filter_In in Hi. destruct Hi as [Hseq Hnth].
    apply in_seq in Hseq. cbn in Hseq.
    split; [unfold inRange; lia |].
    apply categoriesToBoolArray_nth; [lia | exact Hnth].
  - intros [Hx Hin]. unfold inRange in Hx. exists (Z.to_nat x).
    split; [lia |]. apply filter_In. split; [apply in_seq; cbn; lia |].
    apply categoriesToBoolArray_nth; [lia |].
    replace (Z.of_nat (Z.to_nat x)) with x by lia. exact Hin.
Qed.

Lemma StronglySorted_lt_NoDup l : StronglySorted Z.lt l -> NoDup l.
Proof.
  induction 1 as [| a l _ IH Ha]; constructor; [| exact IH].
  intros Hin. rewrite Forall_forall in Ha. specialize (Ha a Hin). lia.
Qed.

(** C10. [categoriesToBoolArray] returns twelve entries whatever the input
    and ignores the values outside [0, 12); on a list of values in [0, 12)
    the round trip [boolArrayToCategories (categoriesToBoolArray l)] is the
    list of the distinct members of [l] in ascending order, hence [l] itself
    when [l] is ascending without duplicates. *)
Theorem categories_roundtrip :
  (forall cats : list MarketCategory,
      length (categoriesToBoolArray cats) = 12%nat /\
      categoriesToBoolArray cats =
        categoriesToBoolArray (List.filter inRangeb cats)) /\
  (forall cats : list MarketCategory,
      Forall inRange cats ->
      StronglySorted Z.lt (boolArrayToCategories (categoriesToBoolArray cats)) /\
      (forall x, In x (boolArrayToCategories (categoriesToBoolArray cats)) <->
                 In x cats)) /\
  (forall cats : list MarketCategory,
      Forall inRange cats -> StronglySorted Z.lt cats ->
      boolArrayToCategories (categoriesToBoolArray cats) = cats).
Proof.
  assert (Hmem : forall cats, Forall inRange cats ->
            forall x, In x (boolArrayToCategories (categoriesToBoolArray cats)) <->
                      In x cats).
  { intros cats Hall x. rewrite roundtrip_members. split; [tauto |].
    intros Hin. split; [| exact Hin].
    rewrite Forall_forall in Hall. apply Hall, list_elem_of_In, Hin. }
  split; [| split].
  - intros cats. split; [apply categoriesToBoolArray_length |].
    rewrite !categoriesToBoolArray_fold. apply fold_mark_filter.
  - intros cats Hall. split; [apply boolArrayToCategories_sorted | apply Hmem, Hall].
  - intros cats Hall Hsorted.
    apply (StronglySorted_unique_strong Z.lt).
    + intros x1 x2 _ _ H1 H2. lia.
    + apply boolArrayToCategories_sorted.
    + exact Hsorted.
    + apply NoDup_Permutation.
      * apply StronglySorted_lt_NoDup, boolArrayToCategories_sorted.
      * apply StronglySorted_lt_NoDup, Hsorted.
      * intros x. rewrite !list_elem_of_In. apply Hmem, Hall.
Qed.

Lemma categories_roundtrip_witness :
  boolArrayToCategories (categoriesToBoolArray [1; 3; 10]) = [1; 3; 10] /\
  StronglySorted Z.lt (boolArrayToCategories (categoriesToBoolArray [10; 1; 10; 3])).
Proof.
  split.
  - refine (proj2 (proj2 categories_roundtrip) [1; 3; 10] _ _).
    + repeat constructor; discriminate.
    + repeat constructor.
  - refine (proj1 (proj1 (proj2 categories_roundtrip) [10; 1; 10; 3] _)).
    repeat constructor; discriminate.
Defined.

End CategoriesSpec.

(** * Properties of the license keys *)

Module LicenseKeySpec.
Import LicenseKey.

Lemma lxor_isByte a b : isByte a -> isByte b -> isByte (Z.lxor a b).
Proof.
  unfold isByte. intros [Ha0 Ha] [Hb0 Hb].
  assert (H0 : 0 <= Z.lxor a b) by (apply Z.lxor_nonneg; tauto).
  split; [exact H0 |].
  destruct (Z.eq_dec (Z.lxor a b) 0) as [-> | Hne]; [lia |].
  change 256 with (2 ^ 8). apply Z.log2_lt_pow2; [lia |].
  pose proof (Z.log2_lxor a b Ha0 Hb0) as Hlog.
  assert (Z.log2 a < 8).
  { destruct (Z.eq_dec a 0) as [-> | ]; [cbn; lia |].
    apply Z.log2_lt_pow2; [lia | exact Ha]. }
  assert (Z.log2 b < 8).
  { destruct (Z.eq_dec b 0) as [-> | ]; [cbn; lia |].
    apply Z.log2_lt_pow2; [lia | exact Hb]. }
  lia.
Qed.

(** *** The encoder *)

Lemma isHighSurrogate_range u : isHighSurrogate u = true <-> 55296 <= u <= 56319.
Proof. unfold isHighSurrogate. rewrite andb_true_iff, !Z.leb_le. tauto. Qed.

Lemma isLowSurrogate_range u : isLowSurrogate u = true <-> 56320 <= u <= 57343.
Proof. unfold isLowSurrogate. rewrite andb_true_iff, !Z.leb_le. tauto. Qed.

Lemma not_isHighSurrogate u : isHighSurrogate u = false <-> ~ 55296 <= u <= 56319.
Proof. rewrite <- isHighSurrogate_range. destruct (isHighSurrogate u); intuition congruence. Qed.

Lemma not_isLowSurrogate u : isLowSurrogate u = false <-> ~ 56320 <= u <= 57343.
Proof. rewrite <- isLowSurrogate_range. destruct (isLowSurrogate u); intuition congruence. Qed.

Lemma pairPoint_range hi lo :
  55296 <= hi <= 56319 -> 56320 <= lo <= 57343 ->
  65536 <= pairPoint hi lo < 1114112.
Proof. unfold pairPoint. lia. Qed.

Lemma pairPoint_inj hi lo hi' lo' :
  55296 <= hi <= 56319 -> 56320 <= lo <= 57343 ->
  55296 <= hi' <= 56319 -> 56320 <= lo' <= 57343 ->
  pairPoint hi lo = pairPoint hi' lo' -> hi = hi' /\ lo = lo'.
Proof. unfold pairPoint. lia. Qed.

Ltac utf8_cases cp :=
  unfold utf8;
  destruct (Z.ltb_spec cp 128); [| destruct (Z.ltb_spec cp 2048);
    [| destruct (Z.ltb_spec cp 65536)]].

Lemma utf8_isByte cp : 0 <= cp < 1114112 -> Forall isByte (utf8 cp).
Proof.
  intros H. utf8_cases cp; repeat constructor; unfold isByte;
    Z.div_mod_to_equations; lia.
Qed.

Lemma utf8_nonzero cp : 0 < cp -> Forall (fun b => b <> 0) (utf8 cp).
Proof.
  intros H. utf8_cases cp; repeat constructor; Z.div_mod_to_equations; lia.
Qed.

Lemma utf8_nonempty cp rest : utf8 cp ++ rest <> [].
Proof. utf8_cases cp; discriminate. Qed.

(** The encoding of a code point is recognised at the front of a byte
    sequence: UTF-8 is prefix-free. *)
Lemma utf8_prefix_inj cp1 cp2 r1 r2 :
  0 <= cp1 < 1114112 -> 0 <= cp2 < 1114112 ->
  utf8 cp1 ++ r1 = utf8 cp2 ++ r2 -> cp1 = cp2 /\ r1 = r2.
Proof.
  intros H1 H2. utf8_cases cp1; utf8_cases cp2; cbn [app]; intros E;
    injection E; clear E; intros;
    first [ split; [Z.div_mod_to_equations; lia | congruence]
          | exfalso; Z.div_mod_to_equations; lia ].
Qed.

Lemma encode_isByte seed : Forall isCodeUnit seed -> Forall isByte (encode seed).
Proof.
  assert (Hrep : Forall isByte (utf8 65533)) by (apply utf8_isByte; lia).
  remember (length seed) as n eqn:Hn. revert seed Hn.
  induction (lt_wf n) as [n _ IH]. intros seed -> Hunits.
  destruct seed as [| u rest]; [constructor |].
  apply Forall_cons in Hunits. destruct Hunits as [Hu Hrest].
  cbn [encode]. destruct (isHighSurrogate u) eqn:Ehi.
  - apply isHighSurrogate_range in Ehi. destruct rest as [| v rest']; [exact Hrep |].
    pose proof Hrest as Hrest0.
    apply Forall_cons in Hrest. destruct Hrest as [Hv Hrest'].
    destruct (isLowSurrogate v) eqn:Elo.
    + apply isLowSurrogate_range in Elo. apply Forall_app. split.
      * apply utf8_isByte. pose proof (pairPoint_range u v Ehi Elo). lia.
      * apply (IH (length rest')); [cbn; lia | reflexivity | exact Hrest'].
    + apply Forall_app. split; [exact Hrep |].
      apply (IH (length (v :: rest'))); [cbn; lia | reflexivity | exact Hrest0].
  - destruct (isLowSurrogate u) eqn:Elo; apply Forall_app; split;
      try exact Hrep;
      try (apply (IH (length rest)); [cbn; lia | reflexivity | exact Hrest]).
    apply utf8_isByte. unfold isCodeUnit in Hu. lia.
Qed.

Lemma literal_isCodeUnit s : Forall isCodeUnit (literal s).
Proof.
  unfold literal. apply Forall_forall. intros u Hu.
  apply list_elem_of_In, in_map_iff in Hu. destruct Hu as (c & <- & _).
  pose proof (nat_ascii_bounded c). unfold isCodeUnit. lia.
Qed.

(** A well-formed string starts with a code point, one code unit or a
    surrogate pair, and goes on with a well-formed string. *)
Lemma encode_step s :
  Forall isCodeUnit s -> isWellFormed s = true -> s <> [] ->
  exists cp k r,
    s = k ++ r /\ encode s = utf8 cp ++ encode r /\
    Forall isCodeUnit r /\ isWellFormed r = true /\ (length r < length s)%nat /\
    0 <= cp < 1114112 /\
    ((k = [cp] /\ cp < 65536) \/
     (exists hi lo, k = [hi; lo] /\ cp = pairPoint hi lo /\
        55296 <= hi <= 56319 /\ 56320 <= lo <= 57343)).
Proof.
  intros Hunits Hwf Hne. destruct s as [| u rest]; [contradiction |].
  apply Forall_cons in Hunits. destruct Hunits as [Hu Hrest].
  cbn [encode isWellFormed] in *. destruct (isHighSurrogate u) eqn:Ehi.
  - destruct rest as [| v rest']; [discriminate Hwf |].
    apply andb_true_iff in Hwf. destruct Hwf as [Elo Hwf]. rewrite Elo.
    apply Forall_cons in Hrest. destruct Hrest as [Hv Hrest'].
    apply isHighSurrogate_range in Ehi. apply isLowSurrogate_range in Elo.
    exists (pairPoint u v), [u; v], rest'.
    pose proof (pairPoint_range u v Ehi Elo).
    repeat split; try assumption; try (cbn; lia).
    right. exists u, v. repeat split; assumption || lia.
  - apply andb_true_iff in Hwf. destruct Hwf as [Elo Hwf].
    apply negb_true_iff in Elo. rewrite Elo.
    exists u, [u], rest. unfold isCodeUnit in Hu.
    repeat split; try assumption; try (cbn; lia).
    left. split; [reflexivity | lia].
Qed.

(** On well-formed strings the encoder is injective. *)
Lemma encode_inj_wellFormed s1 s2 :
  Forall isCodeUnit s1 -> Forall isCodeUnit s2 ->
  isWellFormed s1 = true -> isWellFormed s2 = true ->
  encode s1 = encode s2 -> s1 = s2.
Proof.
  remember (length s1) as n eqn:Hn. revert s1 s2 Hn.
  induction (lt_wf n) as [n _ IH]. intros s1 s2 -> Hu1 Hu2 Hw1 Hw2 E.
  destruct (decide (s1 = [])) as [-> | Hne1].
  - destruct (decide (s2 = [])) as [-> | Hne2]; [reflexivity |].
    destruct (encode_step s2 Hu2 Hw2 Hne2) as (cp & k & r & _ & Henc & _).
    rewrite Henc in E. cbn in E. symmetry in E.
    exfalso. exact (utf8_nonempty _ _ E).
  - destruct (encode_step s1 Hu1 Hw1 Hne1)
      as (cp1 & k1 & r1 & -> & Henc1 & Hur1 & Hwr1 & Hlen1 & Hcp1 & Hk1).
    destruct (decide (s2 = [])) as [-> | Hne2].
    { rewrite Henc1 in E. cbn in E. exfalso. exact (utf8_nonempty _ _ E). }
    destruct (encode_step s2 Hu2 Hw2 Hne2)
      as (cp2 & k2 & r2 & -> & Henc2 & Hur2 & Hwr2 & Hlen2 & Hcp2 & Hk2).
    rewrite Henc1, Henc2 in E.
    destruct (utf8_prefix_inj _ _ _ _ Hcp1 Hcp2 E) as [Hcp Er].
    assert (Hr : r1 = r2)
      by (apply (IH (length r1)); [exact Hlen1 | reflexivity | assumption ..]).
    subst r2. f_equal.
    destruct Hk1 as [[-> Hb1] | (h1 & l1 & -> & -> & Hh1 & Hl1)];
      destruct Hk2 as [[-> Hb2] | (h2 & l2 & -> & -> & Hh2 & Hl2)].
    + congruence.
    + pose proof (pairPoint_range h2 l2 Hh2 Hl2). lia.
    + pose proof (pairPoint_range h1 l1 Hh1 Hl1). lia.
    + destruct (pairPoint_inj _ _ _ _ Hh1 Hl1 Hh2 Hl2 Hcp) as [-> ->]. reflexivity.
Qed.

(** *** The loop *)

Lemma xorFold_length i data hash : length (xorFold i data hash) = length hash.
Proof.
  revert i hash.
  induction data as [| d data IH]; intros i hash; cbn [xorFold]; [reflexivity |].
  rewrite IH. apply length_insert.
Qed.

Lemma xorFold_isByte i data hash :
  Forall isByte data -> Forall isByte hash -> Forall isByte (xorFold i data hash).
Proof.
  revert i hash.
  induction data as [| d data IH]; intros i hash Hd Hh; cbn [xorFold]; [exact Hh |].
  apply Forall_cons in Hd. destruct Hd as [Hd Hdata].
  apply IH; [exact Hdata |]. apply Forall_insert; [exact Hh |].
  apply lxor_isByte; [| exact Hd].
  destruct (nth_in_or_default (i mod 32)%nat hash 0) as [Hin | ->].
  - rewrite Forall_forall in Hh. apply Hh, list_elem_of_In, Hin.
  - unfold isByte. lia.
Qed.

(** While the loop has not wrapped around, it copies the data into the
    hash: the slots it has passed hold the bytes read, the others are as
    they were. *)
Lemma xorFold_short i data hash j :
  (i + length data <= 32)%nat -> length hash = 32%nat ->
  (forall k, (i <= k)%nat -> nth k hash 0 = 0) ->
  nth j (xorFold i data hash) 0 =
  if decide (i <= j < i + length data)%nat then nth (j - i) data 0 else nth j hash 0.
Proof.
  revert i hash. induction data as [| d data IH]; intros i hash Hlen Hhash Hzero.
  - cbn. case_decide; [lia | reflexivity].
  - cbn [xorFold length] in *.
    rewrite Nat.mod_small by lia. rewrite (Hzero i) by lia. rewrite Z.lxor_0_l.
    rewrite IH.
    + case_decide as H1; case_decide as H2; try lia.
      * replace (j - i)%nat with (S (j - S i)) by lia. reflexivity.
      * assert (j = i) by lia. subst j. rewrite Nat.sub_diag. cbn.
        rewrite nth_lookup, list_lookup_insert_eq by lia. reflexivity.
      * rewrite !nth_lookup, list_lookup_insert_ne by lia. reflexivity.
    + lia.
    + rewrite length_insert. exact Hhash.
    + intros k Hk. rewrite nth_lookup, list_lookup_insert_ne by lia.
      rewrite <- nth_lookup. apply Hzero. lia.
Qed.

(** The key of a seed of at most 32 bytes is the seed padded with zeros. *)
Lemma generateLicenseKey_short seed j :
  (length (encode seed) <= 32)%nat ->
  nth j (generateLicenseKey seed) 0 = nth j (encode seed) 0.
Proof.
  intros Hlen. unfold generateLicenseKey. rewrite xorFold_short.
  - case_decide as H.
    + f_equal. lia.
    + rewrite (nth_overflow (encode seed)) by lia.
      rewrite nth_lookup. destruct (replicate 32 0 !! j) eqn:E; [| reflexivity].
      apply lookup_replicate in E. cbn. tauto.
  - cbn. exact Hlen.
  - apply length_replicate.
  - intros k _. rewrite nth_lookup. destruct (replicate 32 0 !! k) eqn:E; [| reflexivity].
    apply lookup_replicate in E. cbn. tauto.
Qed.

Lemma nth_nonzero (l : list Z) j :
  Forall (fun b => b <> 0) l -> (j < length l)%nat -> nth j l 0 <> 0.
Proof.
  intros Hall Hj. rewrite Forall_forall in Hall.
  apply Hall, list_elem_of_In, nth_In, Hj.
Qed.

(** Seeds whose encodings have at most 32 bytes, none of them zero, and the
    same key have the same encoding. *)
Lemma generateLicenseKey_short_inj s1 s2 :
  shortSeed s1 -> shortSeed s2 ->
  generateLicenseKey s1 = generateLicenseKey s2 -> encode s1 = encode s2.
Proof.
  intros [Hl1 Hn1] [Hl2 Hn2] E.
  assert (Hnth : forall j, nth j (encode s1) 0 = nth j (encode s2) 0).
  { intros j. rewrite <- !generateLicenseKey_short by assumption. rewrite E. reflexivity. }
  assert (Hlen : length (encode s1) = length (encode s2)).
  { destruct (Nat.lt_total (length (encode s1)) (length (encode s2))) as [H | [H | H]].
    - exfalso. apply (nth_nonzero (encode s2) (length (encode s1)) Hn2 H).
      rewrite <- Hnth. apply nth_overflow. lia.
    - exact H.
    - exfalso. apply (nth_nonzero (encode s1) (length (encode s2)) Hn1 H).
      rewrite Hnth. apply nth_overflow. lia. }
  apply (nth_ext _ _ 0 0 Hlen). intros j _. apply Hnth.
Qed.

(** C8, as stated, fails: two distinct seeds have the same key. *)
Lemma generateLicenseKey_collision :
  seedA <> seedB /\ generateLicenseKey seedA = generateLicenseKey seedB.
Proof.
  split; [intros E; vm_compute in E; discriminate E | vm_compute; reflexivity].
Qed.

(** Well-formed strings are needed below: a surrogate without its partner
    is encoded as U+FFFD, so two seeds of one such code unit each have the
    same key. *)
Lemma generateLicenseKey_lone_surrogates :
  encode [55296] = [239; 191; 189] /\ encode [55297] = [239; 191; 189] /\
  generateLicenseKey [55296] = generateLicenseKey [55297].
Proof. repeat split; reflexivity. Qed.

(** C8, amended. [generateLicenseKey] maps every seed to a key of 32 bytes,
    the UTF-8 bytes of the seed folded by exclusive or; two distinct seeds
    that are well-formed strings (no surrogate without its partner) and whose
    encodings have at most 32 bytes, none of them the zero byte, have distinct
    keys. *)
Theorem generateLicenseKey_key :
  (forall seed : list Z,
      Forall isCodeUnit seed ->
      length (generateLicenseKey seed) = 32%nat /\
      Forall isByte (generateLicenseKey seed)) /\
  (forall s1 s2 : list Z,
      Forall isCodeUnit s1 -> Forall isCodeUnit s2 ->
      isWellFormed s1 = true -> isWellFormed s2 = true ->
      shortSeed s1 -> shortSeed s2 -> s1 <> s2 ->
      generateLicenseKey s1 <> generateLicenseKey s2).
Proof.
  split.
  - intros seed Hunits. unfold generateLicenseKey. split.
    + rewrite xorFold_length. apply length_replicate.
    + apply xorFold_isByte; [apply encode_isByte, Hunits |].
      apply Forall_forall. intros b Hb. apply elem_of_replicate in Hb.
      destruct Hb as [-> _]. unfold isByte. lia.
  - intros s1 s2 Hu1 Hu2 Hw1 Hw2 H1 H2 Hne E. apply Hne.
    apply encode_inj_wellFormed; try assumption.
    apply generateLicenseKey_short_inj; assumption.
Qed.

Lemma generateLicenseKey_key_witness :
  generateLicenseKey (literal "unique-license-string") <>
  generateLicenseKey (literal "another-license").
Proof.
  refine (proj2 generateLicenseKey_key (literal "unique-license-string")
            (literal "another-license") (literal_isCodeUnit _) (literal_isCodeUnit _)
            _ _ _ _ _).
  - reflexivity.
  - reflexivity.
  - split; [vm_compute; lia | apply (bool_decide_unpack _); vm_compute; exact I].
  - split; [vm_compute; lia | apply (bool_decide_unpack _); vm_compute; exact I].
  - intros E. vm_compute in E. discriminate E.
Defined.

End LicenseKeySpec.

(** * Properties of the ledger *)

Module LedgerSpec.
Import Constants PDA Records Fees Ledger.

Lemma bind_Ok {A B} (r : result A) (f : A -> result B) (b : B) :
  r ≫= f = Ok b -> exists a, r = Ok a /\ f a = Ok b.
Proof. destruct r as [a | e]; cbn; [eauto | discriminate]. Qed.

Lemma require_Ok (c : bool) (e : Error) (u : unit) :
  require c e = Ok u -> c = true.
Proof. destruct c; [reflexivity | discriminate]. Qed.

Lemma fromOption_Ok {A} (o : option A) (e : Error) (a : A) :
  fromOption o e = Ok a -> o = Some a.
Proof. destruct o; cbn; congruence. Qed.

(** Takes a successful run of an instruction apart: one hypothesis for each
    guard that passed and each record that was read. *)
Ltac unpack H :=
  repeat match type of H with
  | _ ≫= _ = Ok _ =>
      let a := fresh "x" in
      let Ha := fresh "G" in
      apply bind_Ok in H; destruct H as (a & Ha & H);
      first [ apply require_Ok in Ha
            | apply fromOption_Ok in Ha
            | idtac ]
  | Ok _ = Ok _ => injection H as H
  | (if ?c then _ else _) = Ok _ => destruct c eqn:?
  end.

Lemma marketKept_refl m : marketKept m m.
Proof. right. split; reflexivity. Qed.

Lemma betKept_refl b : betKept b b.
Proof. repeat split; auto. Qed.

Lemma marketKept_trans m1 m2 m3 :
  marketKept m1 m2 -> marketKept m2 m3 -> marketKept m1 m3.
Proof.
  unfold marketKept. intros [H1 | [H1 H1']] [H2 | [H2 H2']]; try (left; congruence).
  right. split; congruence.
Qed.

Lemma betKept_trans b1 b2 b3 : betKept b1 b2 -> betKept b2 b3 -> betKept b1 b3.
Proof.
  unfold betKept. intros (? & ? & ? & ?) (? & ? & ? & ?).
  repeat split; try congruence. auto.
Qed.

Lemma extends_refl st : extends st st.
Proof.
  split; intros a x Hx; exists x; split; auto using marketKept_refl, betKept_refl.
Qed.

Lemma extends_trans st1 st2 st3 :
  extends st1 st2 -> extends st2 st3 -> extends st1 st3.
Proof.
  intros [Hm1 Hb1] [Hm2 Hb2]. split.
  - intros a m Hm. destruct (Hm1 a m Hm) as (m2 & Hm2' & Hk1).
    destruct (Hm2 a m2 Hm2') as (m3 & Hm3 & Hk2).
    exists m3. split; [exact Hm3 | eapply marketKept_trans; eassumption].
  - intros a b Hb. destruct (Hb1 a b Hb) as (b2 & Hb2' & Hk1).
    destruct (Hb2 a b2 Hb2') as (b3 & Hb3 & Hk2).
    exists b3. split; [exact Hb3 | eapply betKept_trans; eassumption].
Qed.

(** A ledger with the same markets and the same bets. *)
Lemma extends_same st st' :
  markets st' = markets st -> bets st' = bets st -> extends st st'.
Proof.
  intros Hm Hb. split; intros a x Hx; exists x; rewrite ?Hm, ?Hb;
    split; auto using marketKept_refl, betKept_refl.
Qed.

(** A ledger with one market rewritten, the bets the same. *)
Lemma extends_putMarket st st' a m0 m' :
  markets st !! a = Some m0 -> marketKept m0 m' ->
  markets st' = <[a := m']> (markets st) -> bets st' = bets st ->
  extends st st'.
Proof.
  intros H0 Hk Hm Hb. split.
  - intros a1 m1 H1. rewrite Hm. destruct (decide (a = a1)) as [<- | Hne].
    + exists m'. rewrite lookup_insert_eq. split; [reflexivity | congruence].
    + exists m1. rewrite lookup_insert_ne by exact Hne.
      split; [exact H1 | apply marketKept_refl].
  - intros a1 b Hb1. exists b. rewrite Hb. split; [exact Hb1 | apply betKept_refl].
Qed.

(** A ledger with a market added at a free address, the bets the same. *)
Lemma extends_newMarket st st' a m' :
  markets st !! a = None ->
  markets st' = <[a := m']> (markets st) -> bets st' = bets st ->
  extends st st'.
Proof.
  intros H0 Hm Hb. split.
  - intros a1 m1 H1. rewrite Hm. exists m1.
    rewrite lookup_insert_ne by congruence.
    split; [exact H1 | apply marketKept_refl].
  - intros a1 b Hb1. exists b. rewrite Hb. split; [exact Hb1 | apply betKept_refl].
Qed.

(** A ledger with one bet marked as claimed or a bet added at a free
    address, and with one market rewritten. *)
Lemma extends_putBet st st' a m0 m' ba b' :
  markets st !! a = Some m0 -> marketKept m0 m' ->
  markets st' = <[a := m']> (markets st) ->
  (forall b0, bets st !! ba = Some b0 -> betKept b0 b') ->
  bets st' = <[ba := b']> (bets st) ->
  extends st st'.
Proof.
  intros H0 Hk Hm Hkb Hb. split.
  - intros a1 m1 H1. rewrite Hm. destruct (decide (a = a1)) as [<- | Hne].
    + exists m'. rewrite lookup_insert_eq. split; [reflexivity | congruence].
    + exists m1. rewrite lookup_insert_ne by exact Hne.
      split; [exact H1 | apply marketKept_refl].
  - intros a1 b1 H1. rewrite Hb. destruct (decide (ba = a1)) as [<- | Hne].
    + exists b'. rewrite lookup_insert_eq. split; [reflexivity | apply Hkb, H1].
    + exists b1. rewrite lookup_insert_ne by exact Hne.
      split; [exact H1 | apply betKept_refl].
Qed.

Section Properties.

Variable findProgramAddressSync : list string -> PublicKey -> PublicKey * Z.
Variable programId : PublicKey.

Local Abbreviation exec := (Ledger.exec findProgramAddressSync programId).
Local Abbreviation step := (Ledger.step findProgramAddressSync programId).
Local Abbreviation run := (Ledger.run findProgramAddressSync programId).
Local Abbreviation marketAddress := (Ledger.marketAddress findProgramAddressSync programId).
Local Abbreviation betAddress := (Ledger.betAddress findProgramAddressSync programId).
Local Abbreviation place_bet := (Ledger.place_bet findProgramAddressSync programId).
Local Abbreviation cancel_market := (Ledger.cancel_market findProgramAddressSync programId).
Local Abbreviation claim_winnings := (Ledger.claim_winnings findProgramAddressSync programId).
Local Abbreviation claim_refund := (Ledger.claim_refund findProgramAddressSync programId).
Local Abbreviation betsAddressed := (Ledger.betsAddressed findProgramAddressSync programId).

Lemma useLicense_same caller now key domain st st' :
  useLicense findProgramAddressSync programId caller now key domain st = Ok st' ->
  markets st' = markets st /\ bets st' = bets st.
Proof.
  unfold useLicense. intros H. unpack H. subst st'. split; reflexivity.
Qed.

(** Every successful call extends the ledger. *)
Lemma exec_extends c st st' : exec c st = Ok st' -> extends st st'.
Proof.
  destruct c as [who t ins]. unfold Ledger.exec. cbn [caller now instruction].
  destruct ins; intros H.
  - unfold initialize_protocol in H. unpack H. subst st'. by apply extends_same.
  - unfold update_protocol in H. unpack H. subst st'. by apply extends_same.
  - unfold register_oracle in H. unpack H. subst st'. by apply extends_same.
  - unfold update_oracle in H. unpack H. subst st'. by apply extends_same.
  - unfold assign_oracle in H. unpack H. subst st'.
    eapply extends_putMarket; [eassumption | | reflexivity | reflexivity].
    right. split; reflexivity.
  - unfold issue_license in H. unpack H. subst st'. by apply extends_same.
  - unfold activate_license, set_license_active, adminLicenseEdit in H.
    unpack H. subst st'. by apply extends_same.
  - unfold revoke_license, set_license_active, adminLicenseEdit in H.
    unpack H. subst st'. by apply extends_same.
  - unfold update_license, adminLicenseEdit in H.
    unpack H. subst st'. by apply extends_same.
  - unfold transfer_license, holderLicenseEdit in H.
    unpack H. subst st'. by apply extends_same.
  - unfold add_authorized_wallet, holderLicenseEdit in H.
    unpack H. subst st'. by apply extends_same.
  - unfold remove_authorized_wallet, holderLicenseEdit in H.
    unpack H. subst st'. by apply extends_same.
  - unfold add_authorized_domain, holderLicenseEdit in H.
    unpack H. subst st'. by apply extends_same.
  - unfold remove_authorized_domain, holderLicenseEdit in H.
    unpack H. subst st'. by apply extends_same.
  - unfold create_market in H. unpack H. subst st'.
    apply bool_decide_eq_true in G3.
    destruct (requireLicense x).
    + apply useLicense_same in G4. destruct G4 as [Hm Hb].
      eapply extends_newMarket; cbn; rewrite ?Hm, ?Hb; try reflexivity.
      exact G3.
    + injection G4 as <-.
      eapply extends_newMarket; cbn; try reflexivity. exact G3.
  - unfold Ledger.place_bet in H. unpack H. subst st'.
    eapply extends_putBet; [eassumption | | reflexivity | | reflexivity].
    + right. split; reflexivity.
    + intros b0 Hb0. apply bool_decide_eq_true in G4. congruence.
  - unfold withdraw_bet in H. unpack H. subst st'.
    eapply extends_putBet; [eassumption | | reflexivity | | reflexivity].
    + right. split; reflexivity.
    + intros b0 Hb0. rewrite G2 in Hb0. injection Hb0 as <-.
      repeat split; reflexivity.
  - unfold resolve_market in H. unpack H. subst st'.
    eapply extends_putMarket; [eassumption | | reflexivity | reflexivity].
    left. by apply bool_decide_eq_true in G1.
  - unfold oracle_resolve_market in H. unpack H. subst st'.
    eapply extends_putMarket; [eassumption | | reflexivity | reflexivity].
    left. by apply bool_decide_eq_true in G1.
  - unfold Ledger.cancel_market in H. unpack H. subst st'.
    eapply extends_putMarket; [eassumption | | reflexivity | reflexivity].
    left. by apply bool_decide_eq_true in G1.
  - unfold Ledger.claim_winnings in H. unpack H. subst st'.
    eapply extends_putBet with (m' := x); [eassumption | apply marketKept_refl | | | reflexivity].
    + cbn. symmetry. by apply insert_id.
    + intros b0 Hb0. rewrite G1 in Hb0. injection Hb0 as <-.
      repeat split; reflexivity.
  - unfold Ledger.claim_refund in H. unpack H. subst st'.
    eapply extends_putBet with (m' := x); [eassumption | apply marketKept_refl | | | reflexivity].
    + cbn. symmetry. by apply insert_id.
    + intros b0 Hb0. rewrite G1 in Hb0. injection Hb0 as <-.
      repeat split; reflexivity.
Qed.

Lemma step_extends c st : extends st (step c st).
Proof.
  unfold Ledger.step. destruct (exec c st) eqn:E.
  - eapply exec_extends, E.
  - apply extends_refl.
Qed.

Lemma run_extends calls st : extends st (run calls st).
Proof.
  revert st. induction calls as [| c calls IH]; intros st; cbn.
  - apply extends_refl.
  - eapply extends_trans; [apply step_extends | apply IH].
Qed.

(** A failed call leaves the ledger as it was. *)
Lemma step_failed c st e : exec c st = Err e -> step c st = st.
Proof. unfold Ledger.step. intros ->. reflexivity. Qed.

(** *** Market status *)

Lemma cancel_market_not_open who id st m :
  markets st !! marketAddress id = Some m -> status m <> Open ->
  cancel_market who id st =
    if bool_decide (who = creator m) then Err MarketNotOpen else Err Unauthorized.
Proof.
  intros Hm Hs. unfold Ledger.cancel_market. rewrite Hm. cbn.
  destruct (bool_decide (who = creator m)); cbn; [| reflexivity].
  rewrite bool_decide_eq_false_2 by exact Hs. reflexivity.
Qed.

(** C6. The status of a market moves one way. A successful call leaves
    the status of every market as it was or takes it from [Open] to
    [Resolved] or [Cancelled]; a market that is [Resolved] or [Cancelled]
    keeps its status through every sequence of calls; [cancel_market] on a
    [Cancelled] market fails, with [MarketNotOpen] when the creator calls it,
    and the ledger, the status of the market included, stays as it was. *)
Theorem market_status_one_way :
  (forall c st st' a m,
      exec c st = Ok st' -> markets st !! a = Some m ->
      exists m', markets st' !! a = Some m' /\
        (status m' = status m \/
         (status m = Open /\ (status m' = Resolved \/ status m' = Cancelled)))) /\
  (forall calls st a m,
      markets st !! a = Some m -> status m <> Open ->
      exists m', markets (run calls st) !! a = Some m' /\ status m' = status m) /\
  (forall who t id st m,
      markets st !! marketAddress id = Some m -> status m = Cancelled ->
      (exists e, cancel_market who id st = Err e) /\
      (who = creator m -> cancel_market who id st = Err MarketNotOpen) /\
      step (mkCall who t (CancelMarket id)) st = st /\
      markets (step (mkCall who t (CancelMarket id)) st) !! marketAddress id = Some m).
Proof.
  split; [| split].
  - intros c st st' a m Hexec Hm.
    destruct (exec_extends c st st' Hexec) as [Hmk _].
    destruct (Hmk a m Hm) as (m' & Hm' & Hk). exists m'. split; [exact Hm' |].
    destruct Hk as [Hopen | [Hsame _]]; [| left; exact Hsame].
    destruct (status m') eqn:E; [left; congruence | right; auto | right; auto].
  - intros calls st a m Hm Hs.
    destruct (run_extends calls st) as [Hmk _].
    destruct (Hmk a m Hm) as (m' & Hm' & Hk). exists m'. split; [exact Hm' |].
    destruct Hk as [Hopen | [Hsame _]]; [contradiction | exact Hsame].
  - intros who t id st m Hm Hs.
    assert (Hno : status m <> Open) by (rewrite Hs; discriminate).
    pose proof (cancel_market_not_open who id st m Hm Hno) as Hc.
    assert (Hstep : step (mkCall who t (CancelMarket id)) st = st).
    { destruct (bool_decide (who = creator m));
        eapply step_failed; cbn; exact Hc. }
    repeat split.
    + destruct (bool_decide (who = creator m)); eauto.
    + intros Hw. rewrite Hc, bool_decide_eq_true_2 by exact Hw. reflexivity.
    + exact Hstep.
    + rewrite Hstep. exact Hm.
Qed.

(** *** Bets *)

Lemma betsAddressed_same st st' :
  bets st' = bets st -> betsAddressed st -> betsAddressed st'.
Proof. unfold Ledger.betsAddressed. intros ->. auto. Qed.

Lemma betsAddressed_put st st' ba b' :
  bets st' = <[ba := b']> (bets st) ->
  ba = betAddress (market b') (bettor b') ->
  betsAddressed st -> betsAddressed st'.
Proof.
  unfold Ledger.betsAddressed. intros -> Hba Hinv a b.
  destruct (decide (ba = a)) as [<- | Hne].
  - rewrite lookup_insert_eq. intros [= <-]. exact Hba.
  - rewrite lookup_insert_ne by exact Hne. apply Hinv.
Qed.

Lemma exec_betsAddressed c st st' :
  exec c st = Ok st' -> betsAddressed st -> betsAddressed st'.
Proof.
  destruct c as [who t ins]. unfold Ledger.exec. cbn [caller now instruction].
  destruct ins; intros H Hinv;
    try (unfold initialize_protocol, update_protocol, register_oracle,
           update_oracle, assign_oracle, issue_license, activate_license,
           revoke_license, set_license_active, update_license, adminLicenseEdit,
           transfer_license, add_authorized_wallet, remove_authorized_wallet,
           add_authorized_domain, remove_authorized_domain, holderLicenseEdit,
           resolve_market, oracle_resolve_market, Ledger.cancel_market in H;
         unpack H; subst st'; exact Hinv).
  - unfold create_market in H. unpack H. subst st'.
    destruct (requireLicense x).
    + apply useLicense_same in G4. destruct G4 as [_ Hb].
      eapply betsAddressed_same; [| exact Hinv]. exact Hb.
    + injection G4 as <-. exact Hinv.
  - unfold Ledger.place_bet in H. unpack H. subst st'.
    eapply betsAddressed_put; [reflexivity | reflexivity | exact Hinv].
  - unfold withdraw_bet in H. unpack H. subst st'.
    eapply betsAddressed_put; [reflexivity | | exact Hinv].
    cbn. apply Hinv. exact G2.
  - unfold Ledger.claim_winnings in H. unpack H. subst st'.
    eapply betsAddressed_put; [reflexivity | | exact Hinv].
    cbn. apply Hinv. exact G1.
  - unfold Ledger.claim_refund in H. unpack H. subst st'.
    eapply betsAddressed_put; [reflexivity | | exact Hinv].
    cbn. apply Hinv. exact G1.
Qed.

Lemma run_betsAddressed calls st : betsAddressed st -> betsAddressed (run calls st).
Proof.
  revert st. induction calls as [| c calls IH]; intros st Hinv; cbn; [exact Hinv |].
  apply IH. unfold Ledger.step. destruct (exec c st) eqn:E; [| exact Hinv].
  eapply exec_betsAddressed; eassumption.
Qed.

Lemma lookupOutcome_valid i (os : list Outcome) :
  0 <= i < lengthZ os -> exists o, lookupOutcome i os = Some o.
Proof.
  intros [H0 H1]. unfold lookupOutcome, lengthZ in *.
  destruct (Z.leb_spec 0 i); [| lia].
  apply lookup_lt_is_Some. lia.
Qed.

(** With a bet on record for the pair, [place_bet] never succeeds. *)
Lemma place_bet_existing who t id i st b :
  bets st !! betAddress (marketAddress id) who = Some b ->
  exists e, place_bet who t id i st = Err e.
Proof.
  intros Hb. unfold Ledger.place_bet.
  destruct (protocol st) as [ps |]; cbn; [| eauto].
  destruct (markets st !! marketAddress id) as [m |]; cbn; [| eauto].
  destruct (bool_decide (status m = Open)); cbn; [| eauto].
  destruct (t <? bettingDeadline m); cbn; [| eauto].
  destruct (lookupOutcome i (outcomes m)); cbn; [| eauto].
  rewrite Hb. cbn. eauto.
Qed.

Lemma place_bet_AlreadyBet who t id i st b ps m :
  bets st !! betAddress (marketAddress id) who = Some b ->
  protocol st = Some ps -> markets st !! marketAddress id = Some m ->
  status m = Open -> t < bettingDeadline m -> 0 <= i < lengthZ (outcomes m) ->
  place_bet who t id i st = Err AlreadyBet.
Proof.
  intros Hb Hps Hm Hs Ht Hi. unfold Ledger.place_bet.
  rewrite Hps, Hm. cbn.
  rewrite (bool_decide_eq_true_2 (status m = Open)) by exact Hs. cbn.
  destruct (Z.ltb_spec t (bettingDeadline m)); [| lia]. cbn.
  destruct (lookupOutcome_valid i (outcomes m) Hi) as [o ->]. cbn.
  rewrite Hb. reflexivity.
Qed.

(** A successful [place_bet] puts a bet on record for the pair, unclaimed. *)
Lemma place_bet_records who t id i st st' :
  place_bet who t id i st = Ok st' ->
  bets st !! betAddress (marketAddress id) who = None /\
  exists b, bets st' !! betAddress (marketAddress id) who = Some b /\
    market b = marketAddress id /\ bettor b = who /\ outcomeIndex b = i /\
    claimed b = false.
Proof.
  intros H. unfold Ledger.place_bet in H. unpack H. subst st'.
  apply bool_decide_eq_true in G4. split; [exact G4 |].
  eexists. cbn. rewrite lookup_insert_eq. repeat split; reflexivity.
Qed.

(** C5. At most one bet per market and bettor. The address of a bet is
    derived from the bet tag, the market address and the bettor identity. In
    every ledger reached from one without bets, each bet record sits at the
    address of its own market and bettor, so two records for the same pair
    are one record. Once a bet is on record for a pair it stays on record,
    and a further [place_bet] by that bettor on that market fails, with
    [AlreadyBet] when the market is open, the deadline is ahead and the
    outcome index is valid. *)
Theorem one_bet_per_market_and_bettor :
  (forall marketPubkey bettorPubkey,
      betAddress marketPubkey bettorPubkey =
      fst (findProgramAddressSync
             [BET_SEED; toBuffer marketPubkey; toBuffer bettorPubkey] programId)) /\
  (forall st0 calls a1 a2 b1 b2,
      bets st0 = ∅ ->
      bets (run calls st0) !! a1 = Some b1 ->
      bets (run calls st0) !! a2 = Some b2 ->
      market b1 = market b2 -> bettor b1 = bettor b2 ->
      a1 = betAddress (market b1) (bettor b1) /\ a1 = a2 /\ b1 = b2) /\
  (forall who t id i st st' calls,
      place_bet who t id i st = Ok st' ->
      exists b, bets (run calls st') !! betAddress (marketAddress id) who = Some b /\
        market b = marketAddress id /\ bettor b = who) /\
  (forall who t id i st b,
      bets st !! betAddress (marketAddress id) who = Some b ->
      (exists e, place_bet who t id i st = Err e) /\
      step (mkCall who t (PlaceBet id i)) st = st /\
      (forall ps m,
          protocol st = Some ps -> markets st !! marketAddress id = Some m ->
          status m = Open -> t < bettingDeadline m ->
          0 <= i < lengthZ (outcomes m) ->
          place_bet who t id i st = Err AlreadyBet)).
Proof.
  split; [| split; [| split]].
  - reflexivity.
  - intros st0 calls a1 a2 b1 b2 H0 H1 H2 Hm Hb.
    assert (Hinv : betsAddressed (run calls st0)).
    { apply run_betsAddressed. intros a b Hl.
      rewrite H0, lookup_empty in Hl. discriminate Hl. }
    pose proof (Hinv a1 b1 H1) as E1. pose proof (Hinv a2 b2 H2) as E2.
    assert (Ha : a1 = a2) by congruence.
    repeat split; [exact E1 | exact Ha |].
    rewrite <- Ha in H2. congruence.
  - intros who t id i st st' calls H.
    destruct (place_bet_records who t id i st st' H) as (_ & b & Hb & Hm & Hw & _).
    destruct (run_extends calls st') as [_ Hbk].
    destruct (Hbk _ b Hb) as (b' & Hb' & Hm' & Hw' & _).
    exists b'. repeat split; congruence.
  - intros who t id i st b Hb.
    destruct (place_bet_existing who t id i st b Hb) as [e He].
    repeat split.
    + eauto.
    + eapply step_failed. cbn. exact He.
    + intros ps m. apply place_bet_AlreadyBet with (b := b). exact Hb.
Qed.

(** *** Claims *)

Lemma claim_winnings_claimed who id st b :
  bets st !! betAddress (marketAddress id) who = Some b -> claimed b = true ->
  (exists e, claim_winnings who id st = Err e) /\
  (forall m, markets st !! marketAddress id = Some m -> status m = Resolved ->
     outcomeIndex b = winningOutcome m ->
     claim_winnings who id st = Err AlreadyClaimed).
Proof.
  intros Hb Hc. unfold Ledger.claim_winnings. split.
  - destruct (markets st !! marketAddress id) as [m |]; cbn; [| eauto].
    destruct (bool_decide (status m = Resolved)); cbn; [| eauto].
    rewrite Hb. cbn.
    destruct (outcomeIndex b =? winningOutcome m); cbn; [| eauto].
    rewrite Hc. cbn. eauto.
  - intros m Hm Hs Ho. rewrite Hm. cbn.
    rewrite (bool_decide_eq_true_2 (status m = Resolved)) by exact Hs. cbn.
    rewrite Hb. cbn. rewrite Ho, Z.eqb_refl. cbn. rewrite Hc. reflexivity.
Qed.

Lemma claim_refund_claimed who id st b :
  bets st !! betAddress (marketAddress id) who = Some b -> claimed b = true ->
  (exists e, claim_refund who id st = Err e) /\
  (forall m, markets st !! marketAddress id = Some m -> status m = Cancelled ->
     claim_refund who id st = Err AlreadyClaimed).
Proof.
  intros Hb Hc. unfold Ledger.claim_refund. split.
  - destruct (markets st !! marketAddress id) as [m |]; cbn; [| eauto].
    destruct (bool_decide (status m = Cancelled)); cbn; [| eauto].
    rewrite Hb. cbn. rewrite Hc. cbn. eauto.
  - intros m Hm Hs. rewrite Hm. cbn.
    rewrite (bool_decide_eq_true_2 (status m = Cancelled)) by exact Hs. cbn.
    rewrite Hb. cbn. rewrite Hc. reflexivity.
Qed.

(** What a successful [claim_winnings] leaves: the market resolved, the bet
    of the caller on the winning outcome and claimed. *)
Lemma claim_winnings_done who id st st' :
  claim_winnings who id st = Ok st' ->
  exists m b, markets st' !! marketAddress id = Some m /\ status m = Resolved /\
    bets st' !! betAddress (marketAddress id) who = Some b /\
    outcomeIndex b = winningOutcome m /\ claimed b = true.
Proof.
  intros H. unfold Ledger.claim_winnings in H. unpack H. subst st'.
  apply bool_decide_eq_true in G0. apply Z.eqb_eq in G2.
  exists x, (withClaimed x1). cbn. rewrite lookup_insert_eq. auto.
Qed.

Lemma claim_refund_done who id st st' :
  claim_refund who id st = Ok st' ->
  exists m b, markets st' !! marketAddress id = Some m /\ status m = Cancelled /\
    bets st' !! betAddress (marketAddress id) who = Some b /\ claimed b = true.
Proof.
  intros H. unfold Ledger.claim_refund in H. unpack H. subst st'.
  apply bool_decide_eq_true in G0.
  exists x, (withClaimed x1). cbn. rewrite lookup_insert_eq. auto.
Qed.

(** Scenario D: [withdraw_bet] on a bet already withdrawn, the market still
    open and the deadline ahead, fails with [AlreadyClaimed]. *)
Lemma withdraw_bet_claimed who t id st m b :
  markets st !! marketAddress id = Some m -> status m = Open ->
  t < bettingDeadline m ->
  bets st !! betAddress (marketAddress id) who = Some b -> claimed b = true ->
  withdraw_bet findProgramAddressSync programId who t id st = Err AlreadyClaimed.
Proof.
  intros Hm Hs Ht Hb Hc. unfold withdraw_bet. rewrite Hm. cbn.
  rewrite (bool_decide_eq_true_2 (status m = Open)) by exact Hs. cbn.
  destruct (Z.ltb_spec t (bettingDeadline m)); [| lia]. cbn.
  rewrite Hb. cbn. rewrite Hc. reflexivity.
Qed.

(** C7. On a bet whose [claimed] flag is set, [claim_winnings] and
    [claim_refund] fail and the ledger, balances and records, stays as it was;
    the error is [AlreadyClaimed] whenever the market is in the state the
    claim asks for ([Resolved] on the outcome of the bet, or [Cancelled]). In
    particular, after a successful [claim_winnings] (or [claim_refund]) and
    any calls whatever, the same claim by the same bettor fails with
    [AlreadyClaimed]. *)
Theorem claimed_bet_rejected :
  (forall who t id st b,
      bets st !! betAddress (marketAddress id) who = Some b -> claimed b = true ->
      (exists e, claim_winnings who id st = Err e) /\
      (exists e, claim_refund who id st = Err e) /\
      step (mkCall who t (ClaimWinnings id)) st = st /\
      step (mkCall who t (ClaimRefund id)) st = st /\
      balances (step (mkCall who t (ClaimWinnings id)) st) = balances st /\
      balances (step (mkCall who t (ClaimRefund id)) st) = balances st /\
      (forall m, markets st !! marketAddress id = Some m -> status m = Resolved ->
         outcomeIndex b = winningOutcome m ->
         claim_winnings who id st = Err AlreadyClaimed) /\
      (forall m, markets st !! marketAddress id = Some m -> status m = Cancelled ->
         claim_refund who id st = Err AlreadyClaimed)) /\
  (forall who id st st' calls,
      claim_winnings who id st = Ok st' ->
      claim_winnings who id (run calls st') = Err AlreadyClaimed) /\
  (forall who id st st' calls,
      claim_refund who id st = Ok st' ->
      claim_refund who id (run calls st') = Err AlreadyClaimed).
Proof.
  split; [| split].
  - intros who t id st b Hb Hc.
    destruct (claim_winnings_claimed who id st b Hb Hc) as [[e1 He1] Hw].
    destruct (claim_refund_claimed who id st b Hb Hc) as [[e2 He2] Hr].
    assert (H1 : step (mkCall who t (ClaimWinnings id)) st = st)
      by (eapply step_failed; cbn; exact He1).
    assert (H2 : step (mkCall who t (ClaimRefund id)) st = st)
      by (eapply step_failed; cbn; exact He2).
    repeat split; eauto; congruence.
  - intros who id st st' calls H.
    destruct (claim_winnings_done who id st st' H) as (m & b & Hm & Hs & Hb & Ho & Hc).
    destruct (run_extends calls st') as [Hmk Hbk].
    destruct (Hmk _ m Hm) as (m' & Hm' & Hk).
    destruct (Hbk _ b Hb) as (b' & Hb' & _ & _ & Ho' & Hc').
    destruct Hk as [Hopen | [Hs' Hw']]; [congruence |].
    apply (proj2 (claim_winnings_claimed who id _ b' Hb' (Hc' Hc)) m' Hm');
      congruence.
  - intros who id st st' calls H.
    destruct (claim_refund_done who id st st' H) as (m & b & Hm & Hs & Hb & Hc).
    destruct (run_extends calls st') as [Hmk Hbk].
    destruct (Hmk _ m Hm) as (m' & Hm' & Hk).
    destruct (Hbk _ b Hb) as (b' & Hb' & _ & _ & _ & Hc').
    destruct Hk as [Hopen | [Hs' _]]; [congruence |].
    apply (proj2 (claim_refund_claimed who id _ b' Hb' (Hc' Hc)) m' Hm').
    congruence.
Qed.

End Properties.

End LedgerSpec.

(** * The scenarios *)

Module ScenarioSpec.
Import Constants PDA Records Fees Ledger Scenario LedgerSpec.

(** The payout rule of the settlement is the share rule of the estimator:
    with the net amount of the bet as the pool amount, the payout on the final
    totals is what [calculatePotentialWinnings] returns on the totals before
    the bet was counted. *)
Lemma winningsPayout_estimator betAmount totalPool bonusPool outcomeTotal p c l fees :
  calculateFees betAmount p c l = Some fees ->
  calculatePotentialWinnings betAmount (IsBN (outcomeTotal - netAmount fees))
    (IsBN (totalPool - netAmount fees)) (IsBN bonusPool) p c l =
  Some (winningsPayout (netAmount fees) totalPool bonusPool outcomeTotal).
Proof.
  intros Hfees. unfold winningsPayout, calculatePotentialWinnings.
  rewrite Hfees. cbn [mbind option_bind toBN].
  replace (outcomeTotal - netAmount fees + netAmount fees) with outcomeTotal by lia.
  replace (totalPool - netAmount fees + bonusPool + netAmount fees)
    with (totalPool + bonusPool) by lia.
  destruct (outcomeTotal =? 0); reflexivity.
Qed.

(** C4, as stated, fails in its second half: in Scenario B the settlement
    pays 19,800,000, and the estimator evaluated on the same final totals
    (9,400,000 on the winning outcome, total pool 18,800,000, bonus pool
    1,000,000) returns 14,600,000, since it adds the net amount of the bet to
    totals that hold it already. *)
Lemma scenario_B_estimator_on_final_totals :
  markets resolved !! market1 = Some resolvedMarket /\
  lookupOutcome (winningOutcome resolvedMarket) (outcomes resolvedMarket) =
    Some (mkOutcome "Yes" 9400000 1) /\
  winningsPayout (poolAmount winningBet) (totalPool resolvedMarket)
      (bonusPool resolvedMarket) 9400000 = 19800000 /\
  calculatePotentialWinnings (IsBN BET_AMOUNT) (IsBN 9400000)
      (IsBN (totalPool resolvedMarket)) (IsBN (bonusPool resolvedMarket))
      50 50 500 = Some 14600000.
Proof.
  do 3 (split; [vm_compute; reflexivity |]). vm_compute. reflexivity.
Qed.

(** C4, amended. Scenario B. After two bets of 10,000,000 on opposite
    outcomes at fees (50, 50, 500) and the resolution in favour of outcome 0,
    the total pool is 18,800,000, the bonus pool 1,000,000 and the winning
    outcome holds 9,400,000; [claim_winnings] pays the bettor on outcome 0
    [9,400,000 * (18,800,000 + 1,000,000) / 9,400,000 = 19,800,000]. The
    estimator of the fee engine gives this value on the final totals less
    the net amount of the bet itself (outcome total and total pool as they
    were before the bet was counted, the bonus pool as it is at settlement),
    and so it does for every bet and all totals. *)
Theorem scenario_B_settlement :
  (forall betAmount totalPool bonusPool outcomeTotal p c l fees,
      calculateFees betAmount p c l = Some fees ->
      calculatePotentialWinnings betAmount (IsBN (outcomeTotal - netAmount fees))
        (IsBN (totalPool - netAmount fees)) (IsBN bonusPool) p c l =
      Some (winningsPayout (netAmount fees) totalPool bonusPool outcomeTotal)) /\
  markets resolved !! market1 = Some resolvedMarket /\
  bets resolved !! betAddress deriveAddress fortuna market1 bettor1 =
    Some winningBet /\
  calculateFees (IsBN BET_AMOUNT) 50 50 500 = Some (computeFees BET_AMOUNT 50 50 500) /\
  poolAmount winningBet = netAmount (computeFees BET_AMOUNT 50 50 500) /\
  bets settled !! betAddress deriveAddress fortuna market1 bettor1 =
    Some (withClaimed winningBet) /\
  balanceOf (balances settled) bettor1 usdc =
    balanceOf (balances resolved) bettor1 usdc + 19800000 /\
  winningsPayout (poolAmount winningBet) (totalPool resolvedMarket)
      (bonusPool resolvedMarket) 9400000 =
    Z.quot (9400000 * (18800000 + 1000000)) 9400000 /\
  Z.quot (9400000 * (18800000 + 1000000)) 9400000 = 19800000 /\
  calculatePotentialWinnings (IsBN BET_AMOUNT) (IsBN (9400000 - 9400000))
      (IsBN (18800000 - 9400000)) (IsBN 1000000) 50 50 500 = Some 19800000 /\
  shareRule 9400000 (9400000 - 9400000) (18800000 - 9400000) 1000000 = 19800000.
Proof.
  split; [intros; apply winningsPayout_estimator; assumption |].
  do 9 (split; [vm_compute; reflexivity |]).
  vm_compute. reflexivity.
Qed.

Lemma scenario_B_settlement_witness :
  calculatePotentialWinnings (IsBN 10000000)
    (IsBN (9400000 - netAmount (computeFees 10000000 50 50 500)))
    (IsBN (18800000 - netAmount (computeFees 10000000 50 50 500)))
    (IsBN 1000000) 50 50 500 =
  Some (winningsPayout (netAmount (computeFees 10000000 50 50 500))
          18800000 1000000 9400000).
Proof.
  refine (proj1 scenario_B_settlement (IsBN 10000000) 18800000 1000000 9400000
            50 50 500 (computeFees 10000000 50 50 500) _).
  reflexivity.
Defined.

Lemma one_bet_per_market_and_bettor_witness :
  place_bet deriveAddress fortuna bettor1 30 1 1 betting = Err AlreadyBet.
Proof.
  refine (proj2 (proj2
    (proj2 (proj2 (proj2 (one_bet_per_market_and_bettor deriveAddress fortuna)))
       bettor1 30 1 1 betting winningBet _)) protocolB openMarket _ _ _ _ _).
  - vm_compute. reflexivity.
  - vm_compute. reflexivity.
  - vm_compute. reflexivity.
  - reflexivity.
  - reflexivity.
  - vm_compute. split; [discriminate | reflexivity].
Defined.

Lemma market_status_one_way_witness :
  cancel_market deriveAddress fortuna creatorKey 100 cancelled = Err MarketNotOpen /\
  exists m',
    markets (run deriveAddress fortuna
               [mkCall creatorKey 90000 (ResolveMarket 100 0)] cancelled)
      !! market100 = Some m' /\
    status m' = Cancelled.
Proof.
  split.
  - refine (proj1 (proj2
      (proj2 (proj2 (market_status_one_way deriveAddress fortuna))
         creatorKey 0 100 cancelled cancelledMarket _ _)) _).
    + vm_compute. reflexivity.
    + reflexivity.
    + reflexivity.
  - refine (proj1 (proj2 (market_status_one_way deriveAddress fortuna))
      [mkCall creatorKey 90000 (ResolveMarket 100 0)] cancelled market100
      cancelledMarket _ _).
    + vm_compute. reflexivity.
    + discriminate.
Defined.

Lemma claimed_bet_rejected_witness :
  claim_refund deriveAddress fortuna bettor1 100 refunded = Err AlreadyClaimed /\
  claim_winnings deriveAddress fortuna bettor1 1 settled = Err AlreadyClaimed /\
  claim_winnings deriveAddress fortuna bettor1 1
    (run deriveAddress fortuna [mkCall bettor2 86600 (ClaimWinnings 1)] settled) =
  Err AlreadyClaimed.
Proof.
  split; [| split].
  - refine (proj2 (proj2 (proj2 (proj2 (proj2 (proj2 (proj2
      (proj1 (claimed_bet_rejected deriveAddress fortuna)
         bettor1 0 100 refunded refundedBet _ _)))))))
      cancelledMarket _ _).
    + vm_compute. reflexivity.
    + reflexivity.
    + vm_compute. reflexivity.
    + reflexivity.
  - refine (proj1 (proj2 (proj2 (proj2 (proj2 (proj2 (proj2
      (proj1 (claimed_bet_rejected deriveAddress fortuna)
         bettor1 0 1 settled (withClaimed winningBet) _ _)))))))
      resolvedMarket _ _ _).
    + vm_compute. reflexivity.
    + reflexivity.
    + vm_compute. reflexivity.
    + reflexivity.
    + reflexivity.
  - assert (H : isOk (claim_winnings deriveAddress fortuna bettor1 1 resolved) = true)
      by (vm_compute; reflexivity).
    unfold settled, Ledger.step. cbn [Ledger.exec caller now instruction].
    destruct (claim_winnings deriveAddress fortuna bettor1 1 resolved)
      as [st' | e] eqn:E; [| discriminate H].
    exact (proj1 (proj2 (claimed_bet_rejected deriveAddress fortuna))
             bettor1 1 resolved st' _ E).
Defined.

End ScenarioSpec.

(** * Further properties of the fee engine *)

Module FeesBounds.
Import Constants Fees.

(** The floor of a product over the basis-point denominator, between its
    two multiples. *)
Lemma bps_floor_bounds amount bps :
  0 <= amount -> 0 <= bps ->
  let fee := Z.quot (amount * bps) BPS_DENOMINATOR in
  0 <= fee /\ BPS_DENOMINATOR * fee <= amount * bps < BPS_DENOMINATOR * (fee + 1).
Proof.
  intros Ha Hb fee. subst fee. rewrite FeesSpec.bps_quot_floor by assumption.
  unfold BPS_DENOMINATOR.
  pose proof (Z.mul_div_le (amount * bps) 10000 ltac:(lia)).
  pose proof (Z.mul_succ_div_gt (amount * bps) 10000 ltac:(lia)).
  assert (0 <= amount * bps) by nia.
  pose proof (Z.div_pos (amount * bps) 10000 ltac:(lia) ltac:(lia)).
  lia.
Qed.

(** Brings the three fees of a non-negative amount at non-negative rates
    into the context, each with its bounds. *)
Ltac fee_bounds amount p c l Ha Hp Hc Hl :=
  pose proof (bps_floor_bounds amount p Ha Hp);
  pose proof (bps_floor_bounds amount c Ha Hc);
  pose proof (bps_floor_bounds amount l Ha Hl);
  cbn zeta in *; unfold BPS_DENOMINATOR in *.

(** A number between zero and [2 ^ 53] is one [new BN] accepts. *)
Lemma safeNumber_nonneg n : 0 <= n < 2 ^ 53 -> safeNumber n.
Proof. intros H. apply FeesSpec.safeNumber_bound. change (2 ^ 53) with 9007199254740992 in H. lia. Qed.

Lemma safeNumber_bps n : 0 <= n <= BPS_DENOMINATOR -> safeNumber n.
Proof. intros H. apply FeesSpec.safeNumber_bound. unfold BPS_DENOMINATOR in H. lia. Qed.

(** The call returns: the amount converts and the rates are non-negative
    and at most the whole. *)
Ltac returns :=
  apply FeesSpec.calculateFees_returns;
  [assumption | apply safeNumber_bps; lia ..].

(** The net amount of a non-negative amount at valid rates, for use below. *)
Lemma netAmount_bounds amount p c l :
  0 <= amount -> 0 <= p -> 0 <= c -> 0 <= l ->
  p + c + l <= BPS_DENOMINATOR ->
  0 <= netAmount (computeFees amount p c l) <= amount.
Proof.
  intros Ha Hp Hc Hl Hsum. unfold computeFees. cbn.
  fee_bounds amount p c l Ha Hp Hc Hl.
  assert (amount * p + amount * c + amount * l <= amount * 10000) by nia.
  lia.
Qed.

(** With rates that add up to at most the whole (10000 bps), no fee is
    negative, the fees together are at most the amount and the net amount lies
    between zero and the amount. *)
Theorem calculateFees_bounds
    (amount : BNOrNumber) (protocolFeeBps creatorFeeBps poolFeeBps : Z) :
  converts amount -> 0 <= valueOf amount ->
  0 <= protocolFeeBps -> 0 <= creatorFeeBps -> 0 <= poolFeeBps ->
  protocolFeeBps + creatorFeeBps + poolFeeBps <= BPS_DENOMINATOR ->
  exists f,
    calculateFees amount protocolFeeBps creatorFeeBps poolFeeBps = Some f /\
    0 <= protocolFee f /\ 0 <= creatorFee f /\ 0 <= poolFee f /\
    totalFees f <= valueOf amount /\
    0 <= netAmount f <= valueOf amount.
Proof.
  intros Hconv Ha Hp Hc Hl Hsum. eexists. split; [returns |].
  unfold computeFees. cbn.
  fee_bounds (valueOf amount) protocolFeeBps creatorFeeBps poolFeeBps Ha Hp Hc Hl.
  assert (valueOf amount * protocolFeeBps + valueOf amount * creatorFeeBps +
          valueOf amount * poolFeeBps <= valueOf amount * 10000) by nia.
  lia.
Qed.

Lemma calculateFees_bounds_witness :
  exists f,
    calculateFees (IsNumber 12345) 50 50 500 = Some f /\
    0 <= protocolFee f /\ 0 <= creatorFee f /\ 0 <= poolFee f /\
    totalFees f <= 12345 /\ 0 <= netAmount f <= 12345.
Proof.
  refine (calculateFees_bounds (IsNumber 12345) 50 50 500 _ _ _ _ _ _);
    vm_compute; first [reflexivity | discriminate].
Defined.

(** The three separate floors never charge more than one floor on the
    summed rate would, and at most two units less: the rounding residue stays
    in the net amount. *)
Theorem calculateFees_rounding
    (amount : BNOrNumber) (protocolFeeBps creatorFeeBps poolFeeBps : Z) :
  converts amount -> 0 <= valueOf amount ->
  0 <= protocolFeeBps < 2 ^ 53 -> 0 <= creatorFeeBps < 2 ^ 53 ->
  0 <= poolFeeBps < 2 ^ 53 ->
  exists f,
    calculateFees amount protocolFeeBps creatorFeeBps poolFeeBps = Some f /\
    let whole :=
      (valueOf amount * (protocolFeeBps + creatorFeeBps + poolFeeBps))
      / BPS_DENOMINATOR in
    whole - 2 <= totalFees f <= whole /\
    valueOf amount - whole <= netAmount f <= valueOf amount - whole + 2.
Proof.
  intros Hconv Ha Hp Hc Hl. eexists.
  split; [apply FeesSpec.calculateFees_returns;
            [assumption | apply safeNumber_nonneg; assumption ..] |].
  destruct Hp as [Hp _], Hc as [Hc _], Hl as [Hl _].
  unfold computeFees. cbn.
  fee_bounds (valueOf amount) protocolFeeBps creatorFeeBps poolFeeBps Ha Hp Hc Hl.
  set (s := valueOf amount * (protocolFeeBps + creatorFeeBps + poolFeeBps)).
  assert (Hs : s = valueOf amount * protocolFeeBps + valueOf amount * creatorFeeBps +
                   valueOf amount * poolFeeBps) by (subst s; ring).
  pose proof (Z.mul_div_le s 10000 ltac:(lia)).
  pose proof (Z.mul_succ_div_gt s 10000 ltac:(lia)).
  lia.
Qed.

Lemma calculateFees_rounding_witness :
  exists f,
    calculateFees (IsBN 199) 50 50 500 = Some f /\
    let whole := (199 * (50 + 50 + 500)) / BPS_DENOMINATOR in
    whole - 2 <= totalFees f <= whole /\
    199 - whole <= netAmount f <= 199 - whole + 2.
Proof.
  refine (calculateFees_rounding (IsBN 199) 50 50 500 _ _ _ _ _);
    vm_compute;
    first [exact I | discriminate | split; first [discriminate | reflexivity]].
Defined.

(** A fee is zero exactly when the amount times the rate is below the
    denominator: small bets pay no fee, and the net amount is the whole amount
    exactly when this holds for the three rates. *)
Theorem calculateFees_dust
    (amount : BNOrNumber) (protocolFeeBps creatorFeeBps poolFeeBps : Z) :
  converts amount -> 0 <= valueOf amount ->
  0 <= protocolFeeBps < 2 ^ 53 -> 0 <= creatorFeeBps < 2 ^ 53 ->
  0 <= poolFeeBps < 2 ^ 53 ->
  exists f,
    calculateFees amount protocolFeeBps creatorFeeBps poolFeeBps = Some f /\
    (protocolFee f = 0 <-> valueOf amount * protocolFeeBps < BPS_DENOMINATOR) /\
    (creatorFee f = 0 <-> valueOf amount * creatorFeeBps < BPS_DENOMINATOR) /\
    (poolFee f = 0 <-> valueOf amount * poolFeeBps < BPS_DENOMINATOR) /\
    (netAmount f = valueOf amount <->
       valueOf amount * protocolFeeBps < BPS_DENOMINATOR /\
       valueOf amount * creatorFeeBps < BPS_DENOMINATOR /\
       valueOf amount * poolFeeBps < BPS_DENOMINATOR).
Proof.
  intros Hconv Ha Hp Hc Hl. eexists.
  split; [apply FeesSpec.calculateFees_returns;
            [assumption | apply safeNumber_nonneg; assumption ..] |].
  destruct Hp as [Hp _], Hc as [Hc _], Hl as [Hl _].
  unfold computeFees. cbn.
  fee_bounds (valueOf amount) protocolFeeBps creatorFeeBps poolFeeBps Ha Hp Hc Hl.
  lia.
Qed.

Lemma calculateFees_dust_witness :
  exists f,
    calculateFees (IsBN 19) 50 50 500 = Some f /\
    (protocolFee f = 0 <-> 19 * 50 < BPS_DENOMINATOR) /\
    (creatorFee f = 0 <-> 19 * 50 < BPS_DENOMINATOR) /\
    (poolFee f = 0 <-> 19 * 500 < BPS_DENOMINATOR) /\
    (netAmount f = 19 <->
       19 * 50 < BPS_DENOMINATOR /\ 19 * 50 < BPS_DENOMINATOR /\
       19 * 500 < BPS_DENOMINATOR).
Proof.
  refine (calculateFees_dust (IsBN 19) 50 50 500 _ _ _ _ _);
    vm_compute;
    first [exact I | discriminate | split; first [discriminate | reflexivity]].
Defined.

(** Each fee grows with the amount and with its rate. *)
Theorem calculateFees_monotone
    (amount amount' : BNOrNumber) (p c l p' c' l' : Z) :
  converts amount -> converts amount' ->
  0 <= valueOf amount <= valueOf amount' ->
  0 <= p <= p' -> 0 <= c <= c' -> 0 <= l <= l' ->
  p' < 2 ^ 53 -> c' < 2 ^ 53 -> l' < 2 ^ 53 ->
  exists f f',
    calculateFees amount p c l = Some f /\
    calculateFees amount' p' c' l' = Some f' /\
    protocolFee f <= protocolFee f' /\ creatorFee f <= creatorFee f' /\
    poolFee f <= poolFee f' /\ totalFees f <= totalFees f'.
Proof.
  intros Hconv Hconv' Ha Hp Hc Hl Sp Sc Sl. do 2 eexists.
  split; [apply FeesSpec.calculateFees_returns;
            [assumption | apply safeNumber_nonneg; lia ..] |].
  split; [apply FeesSpec.calculateFees_returns;
            [assumption | apply safeNumber_nonneg; lia ..] |].
  unfold computeFees. cbn.
  assert (Hmono : forall a a' b b', 0 <= a <= a' -> 0 <= b <= b' ->
            Z.quot (a * b) BPS_DENOMINATOR <= Z.quot (a' * b') BPS_DENOMINATOR).
  { intros a a' b b' Ha' Hb'. rewrite !FeesSpec.bps_quot_floor by lia.
    apply Z.div_le_mono; [reflexivity | nia]. }
  pose proof (Hmono _ _ _ _ Ha Hp). pose proof (Hmono _ _ _ _ Ha Hc).
  pose proof (Hmono _ _ _ _ Ha Hl). lia.
Qed.

Lemma calculateFees_monotone_witness :
  exists f f',
    calculateFees (IsBN 199) 50 50 400 = Some f /\
    calculateFees (IsNumber 200) 50 50 500 = Some f' /\
    protocolFee f <= protocolFee f' /\ creatorFee f <= creatorFee f' /\
    poolFee f <= poolFee f' /\ totalFees f <= totalFees f'.
Proof.
  refine (calculateFees_monotone (IsBN 199) (IsNumber 200) 50 50 400 50 50 500
            _ _ _ _ _ _ _ _ _);
    vm_compute;
    first [exact I | reflexivity | discriminate | split; discriminate].
Defined.

(** The net amount is not monotone in the amount: one more unit staked
    changes it by at most one upwards and at most two downwards, and it does
    drop by two, from 9,999 to 9,997, at rates (1, 1, 1). *)
Theorem calculateFees_net_step (amount : Z) (p c l : Z) :
  0 <= amount ->
  0 <= p <= BPS_DENOMINATOR -> 0 <= c <= BPS_DENOMINATOR ->
  0 <= l <= BPS_DENOMINATOR ->
  exists f f',
    calculateFees (IsBN amount) p c l = Some f /\
    calculateFees (IsBN (amount + 1)) p c l = Some f' /\
    netAmount f - 2 <= netAmount f' <= netAmount f + 1.
Proof.
  intros Ha Hp Hc Hl. do 2 eexists.
  split; [apply FeesSpec.calculateFees_returns;
            [exact I | apply safeNumber_bps; assumption ..] |].
  split; [apply FeesSpec.calculateFees_returns;
            [exact I | apply safeNumber_bps; assumption ..] |].
  unfold computeFees. cbn.
  assert (Ha' : 0 <= amount + 1) by lia.
  pose proof (bps_floor_bounds amount p Ha ltac:(lia)).
  pose proof (bps_floor_bounds amount c Ha ltac:(lia)).
  pose proof (bps_floor_bounds amount l Ha ltac:(lia)).
  pose proof (bps_floor_bounds (amount + 1) p Ha' ltac:(lia)).
  pose proof (bps_floor_bounds (amount + 1) c Ha' ltac:(lia)).
  pose proof (bps_floor_bounds (amount + 1) l Ha' ltac:(lia)).
  cbn zeta in *. unfold BPS_DENOMINATOR in *.
  assert ((amount + 1) * p = amount * p + p) by ring.
  assert ((amount + 1) * c = amount * c + c) by ring.
  assert ((amount + 1) * l = amount * l + l) by ring.
  lia.
Qed.

Lemma calculateFees_net_step_witness :
  (exists f, calculateFees (IsBN 9999) 1 1 1 = Some f /\ netAmount f = 9999) /\
  (exists f', calculateFees (IsBN (9999 + 1)) 1 1 1 = Some f' /\ netAmount f' = 9997) /\
  exists f f',
    calculateFees (IsBN 9999) 1 1 1 = Some f /\
    calculateFees (IsBN (9999 + 1)) 1 1 1 = Some f' /\
    netAmount f - 2 <= netAmount f' <= netAmount f + 1.
Proof.
  split; [eexists; split; reflexivity |].
  split; [eexists; split; reflexivity |].
  refine (calculateFees_net_step 9999 1 1 1 _ _ _ _);
    vm_compute; first [discriminate | split; discriminate].
Defined.

(** A negative amount is not refused: the division of bn.js truncates
    toward zero, so the breakdown of [- amount] is the breakdown of [amount]
    with every component negated. Both calls return when [new BN] accepts
    the three rates, and both throw otherwise. *)
Theorem calculateFees_negated (amount : Z) (p c l : Z) :
  match calculateFees (IsBN amount) p c l, calculateFees (IsBN (- amount)) p c l with
  | Some f, Some g =>
      safeNumber p /\ safeNumber c /\ safeNumber l /\
      protocolFee g = - protocolFee f /\ creatorFee g = - creatorFee f /\
      poolFee g = - poolFee f /\ totalFees g = - totalFees f /\
      netAmount g = - netAmount f
  | None, None => ~ (safeNumber p /\ safeNumber c /\ safeNumber l)
  | _, _ => False
  end.
Proof.
  destruct (FeesSpec.safeNumber_dec p) as [Hp | Hp];
    [destruct (FeesSpec.safeNumber_dec c) as [Hc | Hc];
      [destruct (FeesSpec.safeNumber_dec l) as [Hl | Hl] |] |].
  - rewrite !FeesSpec.calculateFees_returns by (assumption || exact I).
    do 3 (split; [assumption |]).
    unfold computeFees. cbn.
    rewrite !Z.mul_opp_l.
    rewrite !Z.quot_opp_l by (unfold BPS_DENOMINATOR; lia).
    repeat split; lia.
  - rewrite !FeesSpec.calculateFees_refuses by tauto. tauto.
  - rewrite !FeesSpec.calculateFees_refuses by tauto. tauto.
  - rewrite !FeesSpec.calculateFees_refuses by tauto. tauto.
Qed.

End FeesBounds.

(** * Further properties of the winnings estimate *)

Module WinningsBounds.
Import Constants Fees FeesBounds.

Lemma share_bounds net rest all :
  0 <= net -> 0 <= rest -> 0 <= all -> 0 < rest + net ->
  0 <= Z.quot (net * all) (rest + net) <= all.
Proof.
  intros Hn Hr Ha Hpos. rewrite Z.quot_div_nonneg by nia. split.
  - apply Z.div_pos; nia.
  - apply Z.div_le_upper_bound; nia.
Qed.

(** The two calls return: the amounts convert and the rates are
    non-negative and at most the whole together. *)
Ltac estimate :=
  do 2 eexists;
  split; [apply FeesSpec.calculateFees_returns;
            [assumption | apply safeNumber_bps; lia ..] |];
  split; [apply FeesSpec.calculatePotentialWinnings_returns;
            [assumption .. | apply safeNumber_bps; lia | apply safeNumber_bps; lia
             | apply safeNumber_bps; lia] |].

(** On non-negative totals and valid rates the estimate lies between zero
    and the whole distributable amount. *)
Theorem calculatePotentialWinnings_bounds
    (betAmount currentOutcomeTotal totalPool bonusPool : BNOrNumber)
    (protocolFeeBps creatorFeeBps poolFeeBps : Z) :
  converts betAmount -> converts currentOutcomeTotal ->
  converts totalPool -> converts bonusPool ->
  0 <= valueOf betAmount -> 0 <= valueOf currentOutcomeTotal ->
  0 <= valueOf totalPool -> 0 <= valueOf bonusPool ->
  0 <= protocolFeeBps -> 0 <= creatorFeeBps -> 0 <= poolFeeBps ->
  protocolFeeBps + creatorFeeBps + poolFeeBps <= BPS_DENOMINATOR ->
  exists fees winnings,
    calculateFees betAmount protocolFeeBps creatorFeeBps poolFeeBps = Some fees /\
    calculatePotentialWinnings betAmount currentOutcomeTotal totalPool bonusPool
      protocolFeeBps creatorFeeBps poolFeeBps = Some winnings /\
    0 <= winnings <= valueOf totalPool + valueOf bonusPool + netAmount fees.
Proof.
  intros Cb Co Ct Cbo Hb Ho Ht Hbo Hp Hc Hl Hsum. estimate.
  pose proof (netAmount_bounds (valueOf betAmount) _ _ _ Hb Hp Hc Hl Hsum) as Hnet.
  set (net := netAmount _) in *. unfold shareRule.
  case_decide as E; [lia |]. apply share_bounds; lia.
Qed.

Lemma calculatePotentialWinnings_bounds_witness :
  exists fees winnings,
    calculateFees (IsBN 10000000) 50 50 500 = Some fees /\
    calculatePotentialWinnings (IsBN 10000000) (IsBN 9400000) (IsNumber 18800000)
      (IsBN 1000000) 50 50 500 = Some winnings /\
    0 <= winnings <= 18800000 + 1000000 + netAmount fees.
Proof.
  refine (calculatePotentialWinnings_bounds (IsBN 10000000) (IsBN 9400000)
            (IsNumber 18800000) (IsBN 1000000) 50 50 500 _ _ _ _ _ _ _ _ _ _ _ _);
    vm_compute; first [exact I | reflexivity | discriminate].
Defined.

(** When the outcome holds no more than the pool and the bonus together,
    the estimate is at least the net stake of the bet: a winner is not paid
    less than what the bet put into the pool. *)
Theorem calculatePotentialWinnings_at_least_net
    (betAmount currentOutcomeTotal totalPool bonusPool : BNOrNumber)
    (protocolFeeBps creatorFeeBps poolFeeBps : Z) :
  converts betAmount -> converts currentOutcomeTotal ->
  converts totalPool -> converts bonusPool ->
  0 <= valueOf betAmount -> 0 <= valueOf currentOutcomeTotal ->
  valueOf currentOutcomeTotal <= valueOf totalPool + valueOf bonusPool ->
  0 <= protocolFeeBps -> 0 <= creatorFeeBps -> 0 <= poolFeeBps ->
  protocolFeeBps + creatorFeeBps + poolFeeBps <= BPS_DENOMINATOR ->
  exists fees winnings,
    calculateFees betAmount protocolFeeBps creatorFeeBps poolFeeBps = Some fees /\
    calculatePotentialWinnings betAmount currentOutcomeTotal totalPool bonusPool
      protocolFeeBps creatorFeeBps poolFeeBps = Some winnings /\
    netAmount fees <= winnings.
Proof.
  intros Cb Co Ct Cbo Hb Ho Hle Hp Hc Hl Hsum. estimate.
  pose proof (netAmount_bounds (valueOf betAmount) _ _ _ Hb Hp Hc Hl Hsum) as Hnet.
  set (net := netAmount _) in *. unfold shareRule.
  case_decide as E; [lia |].
  rewrite Z.quot_div_nonneg by nia.
  apply Z.div_le_lower_bound; nia.
Qed.

Lemma calculatePotentialWinnings_at_least_net_witness :
  exists fees winnings,
    calculateFees (IsBN 10000000) 50 50 500 = Some fees /\
    calculatePotentialWinnings (IsBN 10000000) (IsBN 9400000) (IsBN 18800000)
      (IsBN 1000000) 50 50 500 = Some winnings /\
    netAmount fees <= winnings.
Proof.
  refine (calculatePotentialWinnings_at_least_net (IsBN 10000000) (IsBN 9400000)
            (IsBN 18800000) (IsBN 1000000) 50 50 500 _ _ _ _ _ _ _ _ _ _ _);
    vm_compute; first [exact I | discriminate].
Defined.

(** The first bet on an outcome is promised everything: with nothing on
    the outcome yet, the estimate is the whole distributable amount, whatever
    the other arguments the conversions accept. *)
Theorem calculatePotentialWinnings_first_bet
    (betAmount currentOutcomeTotal totalPool bonusPool : BNOrNumber)
    (protocolFeeBps creatorFeeBps poolFeeBps : Z) :
  converts betAmount -> converts currentOutcomeTotal ->
  converts totalPool -> converts bonusPool ->
  safeNumber protocolFeeBps -> safeNumber creatorFeeBps -> safeNumber poolFeeBps ->
  valueOf currentOutcomeTotal = 0 ->
  exists fees,
    calculateFees betAmount protocolFeeBps creatorFeeBps poolFeeBps = Some fees /\
    calculatePotentialWinnings betAmount currentOutcomeTotal totalPool bonusPool
      protocolFeeBps creatorFeeBps poolFeeBps =
    Some (valueOf totalPool + valueOf bonusPool + netAmount fees).
Proof.
  intros Cb Co Ct Cbo Sp Sc Sl Ho. eexists.
  split; [apply FeesSpec.calculateFees_returns; assumption |].
  rewrite FeesSpec.calculatePotentialWinnings_returns by assumption.
  f_equal. unfold shareRule. rewrite Ho, Z.add_0_l.
  set (net := netAmount _).
  case_decide as E; [reflexivity |].
  rewrite Z.mul_comm. apply Z.quot_mul. exact E.
Qed.

Lemma calculatePotentialWinnings_first_bet_witness :
  exists fees,
    calculateFees (IsBN 10000000) 50 50 500 = Some fees /\
    calculatePotentialWinnings (IsBN 10000000) (IsNumber 0) (IsBN 9400000)
      (IsBN 500000) 50 50 500 =
    Some (9400000 + 500000 + netAmount fees).
Proof.
  refine (calculatePotentialWinnings_first_bet (IsBN 10000000) (IsNumber 0)
            (IsBN 9400000) (IsBN 500000) 50 50 500 _ _ _ _ _ _ _ _);
    vm_compute; first [exact I | reflexivity].
Defined.

(** The estimate falls as the outcome fills up and rises with the pool and
    with the bonus pool. *)
Theorem calculatePotentialWinnings_monotone
    (betAmount : BNOrNumber) (outcomeTotal outcomeTotal' pool pool' bonus bonus' : Z)
    (protocolFeeBps creatorFeeBps poolFeeBps : Z) :
  converts betAmount -> 0 <= valueOf betAmount ->
  0 <= outcomeTotal' <= outcomeTotal ->
  0 <= pool <= pool' -> 0 <= bonus <= bonus' ->
  0 <= protocolFeeBps -> 0 <= creatorFeeBps -> 0 <= poolFeeBps ->
  protocolFeeBps + creatorFeeBps + poolFeeBps <= BPS_DENOMINATOR ->
  exists winnings winnings',
    calculatePotentialWinnings betAmount (IsBN outcomeTotal) (IsBN pool)
      (IsBN bonus) protocolFeeBps creatorFeeBps poolFeeBps = Some winnings /\
    calculatePotentialWinnings betAmount (IsBN outcomeTotal') (IsBN pool')
      (IsBN bonus') protocolFeeBps creatorFeeBps poolFeeBps = Some winnings' /\
    winnings <= winnings'.
Proof.
  intros Cb Hb Ho Ht Hbo Hp Hc Hl Hsum. do 2 eexists.
  split; [apply FeesSpec.calculatePotentialWinnings_returns;
            [assumption | exact I | exact I | exact I | apply safeNumber_bps; lia ..] |].
  split; [apply FeesSpec.calculatePotentialWinnings_returns;
            [assumption | exact I | exact I | exact I | apply safeNumber_bps; lia ..] |].
  cbn [valueOf].
  pose proof (netAmount_bounds (valueOf betAmount) _ _ _ Hb Hp Hc Hl Hsum) as Hnet.
  set (net := netAmount _) in *. unfold shareRule.
  case_decide as E; case_decide as E'; try lia.
  - pose proof (share_bounds net outcomeTotal (pool + bonus + net)
                  ltac:(lia) ltac:(lia) ltac:(lia) ltac:(lia)).
    lia.
  - rewrite !Z.quot_div_nonneg by nia.
    transitivity ((net * (pool' + bonus' + net)) / (outcomeTotal + net)).
    + apply Z.div_le_mono; nia.
    + apply Z.div_le_compat_l; nia.
Qed.

Lemma calculatePotentialWinnings_monotone_witness :
  exists winnings winnings',
    calculatePotentialWinnings (IsBN 10000000) (IsBN 9400000) (IsBN 18800000)
      (IsBN 1000000) 50 50 500 = Some winnings /\
    calculatePotentialWinnings (IsBN 10000000) (IsBN 0) (IsBN 18800000)
      (IsBN 1500000) 50 50 500 = Some winnings' /\
    winnings <= winnings'.
Proof.
  refine (calculatePotentialWinnings_monotone (IsBN 10000000) 9400000 0
            18800000 18800000 1000000 1500000 50 50 500 _ _ _ _ _ _ _ _ _);
    vm_compute; first [exact I | discriminate | split; discriminate].
Defined.

End WinningsBounds.

(** * Further properties of the amount formatting *)

Module AmountsText.
Import JSString BNText Amounts AmountsSpec.












(** Only the first two pieces of the split are used: whatever follows a
    second point is ignored. *)
Theorem parseAmount_second_point (intPart decPart rest : jsstring) (decimals : Z) :
  Forall (fun c => Ascii.eqb c "." = false) intPart ->
  Forall (fun c => Ascii.eqb c "." = false) decPart ->
  parseAmount (intPart ++ "."%char :: decPart ++ "."%char :: rest) decimals =
  parseAmount (intPart ++ "."%char :: decPart) decimals.
Proof.
  intros Hi Hf. unfold parseAmount.
  rewrite (split_at_sep "." intPart (decPart ++ "."%char :: rest)) by exact Hi.
  rewrite (split_at_sep "." decPart rest) by exact Hf.
  rewrite (split_at_sep "." intPart decPart) by exact Hi.
  rewrite (split_no_sep "." decPart) by exact Hf. reflexivity.
Qed.

Lemma parseAmount_second_point_witness :
  parseAmount (list_ascii_of_string "1.2.3") 6 =
  parseAmount (list_ascii_of_string "1.2") 6.
Proof.
  refine (parseAmount_second_point (list_ascii_of_string "1")
            (list_ascii_of_string "2") (list_ascii_of_string "3") 6 _ _);
    repeat constructor.
Defined.



End AmountsText.

(** * Further properties of the category vectors and names *)

Module CategoriesVectors.
Import Categories CategoryNames CategoriesSpec.

(** Two vectors of twelve flags with the same flags set are equal. *)
Lemma vector12_ext (v w : list bool) :
  length v = 12%nat -> length w = 12%nat ->
  (forall i, (i < 12)%nat -> nth i v false = true <-> nth i w false = true) ->
  v = w.
Proof.
  intros Hv Hw Hnth. apply (nth_ext v w false false); [congruence |].
  intros i Hi. specialize (Hnth i ltac:(lia)).
  destruct Hnth as [H1 H2].
  destruct (nth i v false), (nth i w false); try reflexivity;
    [specialize (H1 eq_refl) | specialize (H2 eq_refl)]; discriminate.
Qed.

(** The categories read from a vector are the indices below twelve whose
    flag is set. *)
Lemma boolArrayToCategories_members (boolArray : list bool) x :
  In x (boolArrayToCategories boolArray) <->
  0 <= x < Z.of_nat (Nat.min (length boolArray) 12) /\
  nth (Z.to_nat x) boolArray false = true.
Proof.
  rewrite boolArrayToCategories_filter, in_map_iff. split.
  - intros (i & <- & Hi). apply filter_In in Hi. destruct Hi as [Hseq Hnth].
    apply in_seq in Hseq. rewrite Nat2Z.id. split; [lia | exact Hnth].
  - intros [Hx Hnth]. exists (Z.to_nat x). split; [lia |].
    apply filter_In. split; [apply in_seq; lia | exact Hnth].
Qed.

(** [boolArrayToCategories] reads the first twelve flags only: its result
    is strictly ascending, holds at most twelve category values, all in
    [0, 12), and does not change when the vector is cut after twelve
    entries. *)
Theorem boolArrayToCategories_range (boolArray : list bool) :
  StronglySorted Z.lt (boolArrayToCategories boolArray) /\
  Forall inRange (boolArrayToCategories boolArray) /\
  (length (boolArrayToCategories boolArray) <= 12)%nat /\
  boolArrayToCategories boolArray = boolArrayToCategories (firstn 12 boolArray).
Proof.
  split; [apply boolArrayToCategories_sorted |]. split; [| split].
  - apply Forall_forall. intros x Hx.
    apply list_elem_of_In, boolArrayToCategories_members in Hx.
    unfold inRange. lia.
  - rewrite boolArrayToCategories_filter, length_map.
    etransitivity; [apply filter_length_le |]. rewrite length_seq. lia.
  - apply (StronglySorted_unique_strong Z.lt).
    + intros x1 x2 _ _ H1 H2. lia.
    + apply boolArrayToCategories_sorted.
    + apply boolArrayToCategories_sorted.
    + apply NoDup_Permutation.
      * apply StronglySorted_lt_NoDup, boolArrayToCategories_sorted.
      * apply StronglySorted_lt_NoDup, boolArrayToCategories_sorted.
      * intros x. rewrite !list_elem_of_In, !boolArrayToCategories_members.
        rewrite length_firstn.
        assert (Hnth : 0 <= x < 12 ->
                  nth (Z.to_nat x) (firstn 12 boolArray) false =
                  nth (Z.to_nat x) boolArray false).
        { intros Hx. rewrite !nth_lookup, lookup_take_lt by lia. reflexivity. }
        split; intros [Hx Hn]; (split; [lia |]);
          [rewrite Hnth by lia | rewrite <- Hnth by lia]; exact Hn.
Qed.

(** The round trip from a vector: [categoriesToBoolArray] after
    [boolArrayToCategories] gives back the first twelve flags, filled up with
    [false] when the vector is shorter; a vector of exactly twelve flags comes
    back unchanged. *)
Theorem boolArray_roundtrip :
  (forall boolArray : list bool,
      categoriesToBoolArray (boolArrayToCategories boolArray) =
      firstn 12 (boolArray ++ replicate 12 false)) /\
  (forall boolArray : list bool,
      length boolArray = 12%nat ->
      categoriesToBoolArray (boolArrayToCategories boolArray) = boolArray).
Proof.
  assert (Hgen : forall boolArray : list bool,
            categoriesToBoolArray (boolArrayToCategories boolArray) =
            firstn 12 (boolArray ++ replicate 12 false)).
  { intros v. apply vector12_ext.
    - apply categoriesToBoolArray_length.
    - rewrite length_firstn, length_app, length_replicate. lia.
    - intros i Hi. rewrite categoriesToBoolArray_nth by exact Hi.
      rewrite boolArrayToCategories_members, Nat2Z.id.
      rewrite (nth_lookup (firstn 12 _)), lookup_take_lt by exact Hi.
      destruct (Nat.lt_ge_cases i (length v)) as [Hlt | Hge].
      + rewrite lookup_app_l by exact Hlt. rewrite <- nth_lookup.
        split; [tauto | intros H; split; [lia | exact H]].
      + rewrite lookup_app_r by exact Hge.
        rewrite lookup_replicate_2 by lia. cbn.
        split; [intros [Hx _]; lia | discriminate]. }
  split; [exact Hgen |].
  intros v Hv. rewrite Hgen, firstn_app, Hv. cbn [Nat.sub firstn].
  rewrite app_nil_r. apply firstn_all2. lia.
Qed.

Lemma boolArray_roundtrip_witness :
  categoriesToBoolArray
    (boolArrayToCategories
       [false; true; false; true; false; false; false; false; false; false; true;
        false]) =
  [false; true; false; true; false; false; false; false; false; false; true;
   false].
Proof.
  refine (proj2 boolArray_roundtrip _ _). reflexivity.
Defined.

(** The vector depends on the category values in [0, 12) that occur in the
    list, not on their order or multiplicity, and the vector of a
    concatenation is the entrywise disjunction of the vectors. *)
Theorem categoriesToBoolArray_members :
  (forall cats cats' : list MarketCategory,
      (forall x, inRange x -> In x cats <-> In x cats') ->
      categoriesToBoolArray cats = categoriesToBoolArray cats') /\
  (forall cats cats' : list MarketCategory,
      categoriesToBoolArray (cats ++ cats') =
      zip_with orb (categoriesToBoolArray cats) (categoriesToBoolArray cats')).
Proof.
  split.
  - intros cats cats' Hsame. apply vector12_ext;
      try apply categoriesToBoolArray_length.
    intros i Hi. rewrite !categoriesToBoolArray_nth by exact Hi.
    apply Hsame. unfold inRange. lia.
  - intros cats cats'. apply vector12_ext.
    + apply categoriesToBoolArray_length.
    + rewrite length_zip_with, !categoriesToBoolArray_length. reflexivity.
    + intros i Hi. rewrite categoriesToBoolArray_nth by exact Hi.
      rewrite in_app_iff, <- !categoriesToBoolArray_nth by exact Hi.
      rewrite (nth_lookup (zip_with _ _ _)), lookup_zip_with.
      destruct (lookup_lt_is_Some_2 (categoriesToBoolArray cats) i) as [b Hb];
        [rewrite categoriesToBoolArray_length; exact Hi |].
      destruct (lookup_lt_is_Some_2 (categoriesToBoolArray cats') i) as [b' Hb'];
        [rewrite categoriesToBoolArray_length; exact Hi |].
      rewrite !nth_lookup, Hb, Hb'. cbn.
      rewrite orb_true_iff. reflexivity.
Qed.

Lemma categoriesToBoolArray_members_witness :
  categoriesToBoolArray [10; 1; 10; 3; 40] = categoriesToBoolArray [1; 3; 10].
Proof.
  refine (proj1 categoriesToBoolArray_members [10; 1; 10; 3; 40] [1; 3; 10] _).
  intros x Hx. unfold inRange in Hx. cbn. lia.
Defined.

(** [getCategoryName] names the twelve categories of [getAllCategories],
    each with a name of its own, and answers ["Unknown"] for every other
    number. *)
Theorem getCategoryName_known :
  (forall c : MarketCategory, In c getAllCategories <-> inRange c) /\
  (forall c : MarketCategory, getCategoryName c <> "Unknown" <-> inRange c) /\
  (forall c c' : MarketCategory,
      inRange c -> inRange c' -> getCategoryName c = getCategoryName c' -> c = c') /\
  boolArrayToCategories (categoriesToBoolArray getAllCategories) = getAllCategories.
Proof.
  assert (Hcases : forall c, inRange c ->
            c = 0 \/ c = 1 \/ c = 2 \/ c = 3 \/ c = 4 \/ c = 5 \/ c = 6 \/ c = 7 \/
            c = 8 \/ c = 9 \/ c = 10 \/ c = 11) by (unfold inRange; lia).
  split; [| split; [| split; [| reflexivity]]].
  - intros c. unfold inRange. cbn. unfold Politics, Sports, Finance, Crypto,
      Geopolitics, Earnings, Tech, Culture, World, Economy, Elections, Mentions.
    lia.
  - intros c. split.
    + intros Hname. destruct (decide (inRange c)) as [Hc | Hc]; [exact Hc |].
      exfalso. apply Hname. unfold getCategoryName, CATEGORY_NAMES.
      rewrite (not_elem_of_list_to_map_1 _ c); [reflexivity |].
      cbn. unfold Politics, Sports, Finance, Crypto, Geopolitics, Earnings, Tech,
        Culture, World, Economy, Elections, Mentions.
      rewrite !elem_of_cons, elem_of_nil. unfold inRange in Hc. lia.
    + intros Hc. destruct (Hcases c Hc)
        as [-> | [-> | [-> | [-> | [-> | [-> | [-> | [-> | [-> | [-> | [-> | ->]]]]]]]]]]];
        vm_compute; discriminate.
  - intros c c' Hc Hc' Hname.
    destruct (Hcases c Hc)
      as [-> | [-> | [-> | [-> | [-> | [-> | [-> | [-> | [-> | [-> | [-> | ->]]]]]]]]]]];
      destruct (Hcases c' Hc')
        as [-> | [-> | [-> | [-> | [-> | [-> | [-> | [-> | [-> | [-> | [-> | ->]]]]]]]]]]];
      try reflexivity; vm_compute in Hname; discriminate Hname.
Qed.

Lemma getCategoryName_known_witness :
  (inRange 3 /\ inRange Crypto /\ getCategoryName 3 = getCategoryName Crypto) /\
  3 = Crypto.
Proof.
  assert (H3 : inRange 3) by (unfold inRange; lia).
  assert (Hc : inRange Crypto) by (unfold inRange, Crypto; lia).
  assert (Hn : getCategoryName 3 = getCategoryName Crypto) by reflexivity.
  split; [split; [exact H3 | split; [exact Hc | exact Hn]] |].
  exact (proj1 (proj2 (proj2 getCategoryName_known)) 3 Crypto H3 Hc Hn).
Defined.

End CategoriesVectors.

(** * Further properties of the license keys *)

Module LicenseKeyFold.
Import LicenseKey LicenseKeySpec.

Lemma xorFold_cons i d rest hash :
  xorFold i (d :: rest) hash = xorFold (S i) rest (fold1 (i mod 32) d hash).
Proof. reflexivity. Qed.

Lemma fold1_nth p q d (hash : list Z) :
  nth q (fold1 p d hash) 0 =
  if decide (p = q /\ (p < length hash)%nat) then Z.lxor (nth p hash 0) d
  else nth q hash 0.
Proof.
  unfold fold1. rewrite (nth_lookup (<[_ := _]> _)), list_lookup_insert.
  case_decide; [reflexivity | symmetry; apply nth_lookup].
Qed.

Lemma fold1_twice p d (hash : list Z) : fold1 p d (fold1 p d hash) = hash.
Proof.
  unfold fold1 at 1. rewrite fold1_nth. unfold fold1.
  rewrite list_insert_insert_eq. case_decide as Hp.
  - rewrite Z.lxor_assoc, Z.lxor_nilpotent, Z.lxor_0_r.
    apply list_insert_id. rewrite nth_lookup.
    destruct (lookup_lt_is_Some_2 hash p ltac:(lia)) as [x ->]. reflexivity.
  - destruct (Nat.lt_ge_cases p (length hash)) as [Hlt | Hge]; [tauto |].
    apply list_insert_ge. exact Hge.
Qed.

Lemma fold1_commute p q d e (hash : list Z) :
  fold1 p d (fold1 q e hash) = fold1 q e (fold1 p d hash).
Proof.
  destruct (decide (p = q)) as [<- | Hne].
  - unfold fold1 at 1 3. rewrite !fold1_nth. unfold fold1.
    rewrite !list_insert_insert_eq. case_decide as Hp.
    + f_equal. rewrite !Z.lxor_assoc. f_equal. apply Z.lxor_comm.
    + rewrite !list_insert_ge by lia. reflexivity.
  - unfold fold1 at 1 3. rewrite !fold1_nth.
    rewrite !decide_False by (intros [? _]; congruence). unfold fold1.
    apply list_insert_insert_ne. exact Hne.
Qed.

Lemma fold1_xorFold p d i data hash :
  fold1 p d (xorFold i data hash) = xorFold i data (fold1 p d hash).
Proof.
  revert i hash. induction data as [| e data IH]; intros i hash; [reflexivity |].
  rewrite !xorFold_cons, IH. f_equal. apply fold1_commute.
Qed.

(** Folding the same bytes in twice from the same index undoes the first
    fold. *)
Lemma xorFold_twice i data hash : xorFold i data (xorFold i data hash) = hash.
Proof.
  revert i hash. induction data as [| d data IH]; intros i hash; [reflexivity |].
  rewrite !xorFold_cons, <- fold1_xorFold, IH. apply fold1_twice.
Qed.

(** The loop only sees its index modulo 32. *)
Lemma xorFold_mod i j data hash :
  (i mod 32 = j mod 32)%nat -> xorFold i data hash = xorFold j data hash.
Proof.
  revert i j hash. induction data as [| d data IH]; intros i j hash Hij;
    [reflexivity |].
  rewrite !xorFold_cons, Hij. apply IH.
  change (S i) with (1 + i)%nat. change (S j) with (1 + j)%nat.
  rewrite (Nat.Div0.add_mod 1 i), (Nat.Div0.add_mod 1 j), Hij. reflexivity.
Qed.

Lemma xorFold_app i data1 data2 hash :
  xorFold i (data1 ++ data2) hash =
  xorFold (i + length data1) data2 (xorFold i data1 hash).
Proof.
  revert i hash. induction data1 as [| d data1 IH]; intros i hash.
  - cbn [app length xorFold]. rewrite Nat.add_0_r. reflexivity.
  - cbn [app length]. rewrite !xorFold_cons, IH. f_equal. lia.
Qed.

(** The loop on a doubled block of a multiple of 32 bytes. *)
Lemma xorFold_doubled_block (bs bu bt : list Z) :
  (length bu mod 32 = 0)%nat ->
  xorFold 0 (bs ++ bu ++ bu ++ bt) (replicate 32 0) =
  xorFold 0 (bs ++ bt) (replicate 32 0).
Proof.
  intros Hlen. rewrite !xorFold_app. cbn [Nat.add].
  set (h := xorFold 0 bs (replicate 32 0)).
  set (n := length bs).
  assert (Hshift : forall a, ((a + length bu) mod 32 = a mod 32)%nat).
  { intros a. rewrite Nat.Div0.add_mod, Hlen, Nat.add_0_r.
    apply Nat.Div0.mod_mod. }
  rewrite (xorFold_mod (n + length bu) n bu) by apply Hshift.
  rewrite xorFold_twice.
  apply xorFold_mod. rewrite !Hshift. reflexivity.
Qed.

(** After code units that are no surrogates the encoder starts afresh. *)
Lemma encode_app s t :
  Forall (fun u => isHighSurrogate u = false /\ isLowSurrogate u = false) s ->
  encode (s ++ t) = encode s ++ encode t.
Proof.
  induction 1 as [| u s [Hhi Hlo] _ IH]; [reflexivity |].
  cbn [app encode]. rewrite Hhi, Hlo, IH. apply app_assoc.
Qed.

(** A block of bytes whose length is a multiple of 32, occurring twice in a
    row anywhere in the encoded seed, leaves no trace in the key: the seed
    with and the seed without the doubled block have the same key. So it is
    for a piece of text without surrogates, whose encoding has such a
    length, written twice in a row after text without surrogates. *)
Theorem generateLicenseKey_doubled_block :
  (forall (seed seed' : list Z) (bs bu bt : list Z),
      encode seed = bs ++ bu ++ bu ++ bt -> encode seed' = bs ++ bt ->
      (length bu mod 32 = 0)%nat ->
      generateLicenseKey seed = generateLicenseKey seed') /\
  (forall s u t : list Z,
      Forall (fun c => isHighSurrogate c = false /\ isLowSurrogate c = false) s ->
      Forall (fun c => isHighSurrogate c = false /\ isLowSurrogate c = false) u ->
      (length (encode u) mod 32 = 0)%nat ->
      generateLicenseKey (s ++ u ++ u ++ t) = generateLicenseKey (s ++ t)).
Proof.
  split.
  - intros seed seed' bs bu bt E E' Hlen. unfold generateLicenseKey. cbv zeta.
    rewrite E, E'. apply xorFold_doubled_block, Hlen.
  - intros s u t Hs Hu Hlen. unfold generateLicenseKey. cbv zeta.
    rewrite !(encode_app s) by exact Hs. rewrite !(encode_app u) by exact Hu.
    apply xorFold_doubled_block, Hlen.
Qed.

Lemma generateLicenseKey_doubled_block_witness :
  generateLicenseKey
    (literal "key-" ++ literal "0123456789abcdef0123456789abcdef" ++
     literal "0123456789abcdef0123456789abcdef" ++ literal "-2024") =
  generateLicenseKey (literal "key-" ++ literal "-2024").
Proof.
  refine (proj2 generateLicenseKey_doubled_block (literal "key-")
            (literal "0123456789abcdef0123456789abcdef") (literal "-2024") _ _ _).
  - apply (bool_decide_unpack _). vm_compute. exact I.
  - apply (bool_decide_unpack _). vm_compute. exact I.
  - reflexivity.
Defined.

(** The key of a seed whose encoding has at most 32 bytes is the encoding
    itself, filled up with zero bytes. *)
Theorem generateLicenseKey_short_seed (seed : list Z) :
  (length (encode seed) <= 32)%nat ->
  generateLicenseKey seed =
    encode seed ++ replicate (32 - length (encode seed)) 0.
Proof.
  intros Hlen. apply (nth_ext _ _ 0 0).
  - rewrite length_app, length_replicate.
    unfold generateLicenseKey. rewrite xorFold_length, length_replicate. lia.
  - intros j _. rewrite generateLicenseKey_short by exact Hlen.
    rewrite (nth_lookup (_ ++ _)).
    destruct (Nat.lt_ge_cases j (length (encode seed))) as [Hlt | Hge].
    + rewrite lookup_app_l by exact Hlt. apply nth_lookup.
    + rewrite lookup_app_r by exact Hge. rewrite nth_overflow by exact Hge.
      destruct (replicate _ 0 !! _) as [x |] eqn:E; [| reflexivity].
      apply lookup_replicate in E. cbn. symmetry. tauto.
Qed.

Lemma generateLicenseKey_short_seed_witness :
  generateLicenseKey [104; 233; 8364; 55357; 56832] =
  [104; 195; 169; 226; 130; 172; 240; 159; 152; 128] ++ replicate (32 - 10) 0.
Proof.
  refine (generateLicenseKey_short_seed [104; 233; 8364; 55357; 56832] _).
  vm_compute. lia.
Defined.

End LicenseKeyFold.

(** * Properties of the address seeds *)

Module AddressSeeds.
Import Constants PDA LicenseKey.

Lemma ascii_of_byte_inj a b :
  0 <= a < 256 -> 0 <= b < 256 ->
  ascii_of_nat (Z.to_nat a) = ascii_of_nat (Z.to_nat b) -> a = b.
Proof.
  intros Ha Hb E. apply (f_equal nat_of_ascii) in E.
  rewrite !nat_ascii_embedding in E by lia. lia.
Qed.

(** [leBytes n] loses nothing of a number that fits in [n] bytes. *)
Lemma leBytes_inj n z1 z2 :
  0 <= z1 < 256 ^ Z.of_nat n -> 0 <= z2 < 256 ^ Z.of_nat n ->
  leBytes n z1 = leBytes n z2 -> z1 = z2.
Proof.
  revert z1 z2. induction n as [| n IH]; intros z1 z2 H1 H2 E.
  - cbn in H1, H2. lia.
  - replace (Z.of_nat (S n)) with (Z.of_nat n + 1) in H1, H2 by lia.
    rewrite Z.pow_add_r in H1, H2 by lia.
    cbn [leBytes] in E. injection E as Ec Er.
    pose proof (Z.mod_pos_bound z1 256 ltac:(lia)).
    pose proof (Z.mod_pos_bound z2 256 ltac:(lia)).
    apply ascii_of_byte_inj in Ec; [| lia | lia].
    apply IH in Er.
    + pose proof (Z.div_mod z1 256 ltac:(lia)).
      pose proof (Z.div_mod z2 256 ltac:(lia)). lia.
    + split; [apply Z.div_pos; lia | apply Z.div_lt_upper_bound; lia].
    + split; [apply Z.div_pos; lia | apply Z.div_lt_upper_bound; lia].
Qed.

Lemma bufferFrom_inj k1 k2 :
  Forall isByte k1 -> Forall isByte k2 -> bufferFrom k1 = bufferFrom k2 -> k1 = k2.
Proof.
  unfold bufferFrom. intros H1 H2 E.
  apply (f_equal list_ascii_of_string) in E.
  rewrite !list_ascii_of_string_of_list_ascii in E.
  revert k2 H2 E. induction H1 as [| a k1 Ha _ IH]; intros k2 H2 E.
  - destruct k2; [reflexivity | discriminate E].
  - destruct H2 as [| b k2 Hb H2]; [discriminate E |].
    cbn [map] in E. injection E as Eb Er.
    unfold isByte in Ha, Hb. rewrite !Z.mod_small in Eb by lia.
    f_equal; [apply ascii_of_byte_inj; assumption | apply IH; assumption].
Qed.

Lemma bufferFrom_mod k : bufferFrom (map (fun b => b mod 256) k) = bufferFrom k.
Proof.
  unfold bufferFrom. rewrite map_map. f_equal. apply map_ext.
  intros b. rewrite Z.mod_mod by lia. reflexivity.
Qed.

(** [Buffer.from] tells two arrays apart exactly when they differ modulo
    256 in some entry. *)
Lemma bufferFrom_eq k1 k2 :
  bufferFrom k1 = bufferFrom k2 <->
  map (fun b => b mod 256) k1 = map (fun b => b mod 256) k2.
Proof.
  split.
  - intros E. rewrite <- (bufferFrom_mod k1), <- (bufferFrom_mod k2) in E.
    apply bufferFrom_inj in E; [exact E | |];
      apply Forall_forall; intros b Hb;
      apply list_elem_of_In, in_map_iff in Hb; destruct Hb as (x & <- & _);
      unfold isByte; apply Z.mod_pos_bound; lia.
  - intros E. rewrite <- (bufferFrom_mod k1), <- (bufferFrom_mod k2), E.
    reflexivity.
Qed.

Lemma toBuffer_inj (a b : PublicKey) : toBuffer a = toBuffer b -> a = b.
Proof. destruct a, b. cbn. congruence. Qed.

(** The seed lists the SDK functions pass on. *)
Lemma getMarketPDA_passes id :
  converts id -> Z.abs (valueOf id) < 2 ^ 64 ->
  passes (fun derive => getMarketPDA derive id)
    [MARKET_SEED; leBytes 8 (Z.abs (valueOf id))].
Proof.
  intros Hconv Hid derive programId. unfold getMarketPDA.
  rewrite (FeesSpec.toBN_converts id Hconv). cbn [mbind option_bind].
  unfold toArrayLike. change (256 ^ Z.of_nat 8) with (2 ^ 64).
  destruct (Z.ltb_spec (Z.abs (valueOf id)) (2 ^ 64)); [reflexivity | lia].
Qed.

Lemma getOraclePDA_passes id :
  0 <= id < 2 ^ 32 ->
  passes (fun derive => getOraclePDA derive id) [ORACLE_SEED; leBytes 4 id].
Proof.
  intros Hid derive programId. unfold getOraclePDA, writeUInt32LE.
  destruct (Z.leb_spec 0 id); [| lia].
  destruct (Z.ltb_spec id (2 ^ 32)); [reflexivity | lia].
Qed.

(** Different keys make the SDK functions pass different seed lists to
    [findProgramAddressSync]: a collision between two addresses of one kind
    can only be a collision of the derivation function itself. Market
    identifiers count by their magnitude below [2 ^ 64], oracle identifiers
    below [2 ^ 32], the entries of a license key modulo 256. *)
Theorem addresses_identify_keys :
  (forall id id' : BNOrNumber,
      converts id -> converts id' ->
      Z.abs (valueOf id) < 2 ^ 64 -> Z.abs (valueOf id') < 2 ^ 64 ->
      exists seeds seeds',
        passes (fun derive => getMarketPDA derive id) seeds /\
        passes (fun derive => getMarketPDA derive id') seeds' /\
        (seeds = seeds' <-> Z.abs (valueOf id) = Z.abs (valueOf id'))) /\
  (forall id id' : Z,
      0 <= id < 2 ^ 32 -> 0 <= id' < 2 ^ 32 ->
      exists seeds seeds',
        passes (fun derive => getOraclePDA derive id) seeds /\
        passes (fun derive => getOraclePDA derive id') seeds' /\
        (seeds = seeds' <-> id = id')) /\
  (forall key key' : list Z,
      (length key <= 32)%nat -> (length key' <= 32)%nat ->
      exists seeds seeds',
        passes (fun derive programId => Some (getLicensePDA derive key programId))
          seeds /\
        passes (fun derive programId => Some (getLicensePDA derive key' programId))
          seeds' /\
        (seeds = seeds' <->
         map (fun b => b mod 256) key = map (fun b => b mod 256) key')) /\
  (forall m m' : PublicKey,
      exists seeds seeds',
        passes (fun derive programId => Some (getMarketVaultPDA derive m programId))
          seeds /\
        passes (fun derive programId => Some (getMarketVaultPDA derive m' programId))
          seeds' /\
        (seeds = seeds' <-> m = m')) /\
  (forall m m' : PublicKey,
      exists seeds seeds',
        passes (fun derive programId => Some (getPoolVaultPDA derive m programId))
          seeds /\
        passes (fun derive programId => Some (getPoolVaultPDA derive m' programId))
          seeds' /\
        (seeds = seeds' <-> m = m')) /\
  (forall m b m' b' : PublicKey,
      exists seeds seeds',
        passes (fun derive programId => Some (getBetPDA derive m b programId))
          seeds /\
        passes (fun derive programId => Some (getBetPDA derive m' b' programId))
          seeds' /\
        (seeds = seeds' <-> m = m' /\ b = b')).
Proof.
  assert (Hseed : forall k (seeds seeds' : list string),
            seeds = seeds' -> nth k seeds EmptyString = nth k seeds' EmptyString)
    by (intros k seeds seeds' ->; reflexivity).
  split; [| split; [| split; [| split; [| split]]]].
  - intros id id' C C' H H'. do 2 eexists.
    split; [apply getMarketPDA_passes; assumption |].
    split; [apply getMarketPDA_passes; assumption |].
    split; [| intros ->; reflexivity].
    intros E. apply (Hseed 1%nat) in E. cbn [nth] in E.
    apply (leBytes_inj 8); [change (256 ^ Z.of_nat 8) with (2 ^ 64); lia .. | exact E].
  - intros id id' H H'. do 2 eexists.
    split; [apply getOraclePDA_passes; assumption |].
    split; [apply getOraclePDA_passes; assumption |].
    split; [| intros ->; reflexivity].
    intros E. apply (Hseed 1%nat) in E. cbn [nth] in E.
    apply (leBytes_inj 4); [change (256 ^ Z.of_nat 4) with (2 ^ 32); lia .. | exact E].
  - intros key key' _ _.
    exists [LICENSE_SEED; bufferFrom key], [LICENSE_SEED; bufferFrom key'].
    split; [intros derive programId; reflexivity |].
    split; [intros derive programId; reflexivity |].
    rewrite <- bufferFrom_eq. split; [| intros ->; reflexivity].
    intros E. apply (Hseed 1%nat) in E. exact E.
  - intros m m'.
    exists [MARKET_VAULT_SEED; toBuffer m], [MARKET_VAULT_SEED; toBuffer m'].
    split; [intros derive programId; reflexivity |].
    split; [intros derive programId; reflexivity |].
    split; [| intros ->; reflexivity].
    intros E. apply (Hseed 1%nat) in E. apply toBuffer_inj, E.
  - intros m m'.
    exists [POOL_VAULT_SEED; toBuffer m], [POOL_VAULT_SEED; toBuffer m'].
    split; [intros derive programId; reflexivity |].
    split; [intros derive programId; reflexivity |].
    split; [| intros ->; reflexivity].
    intros E. apply (Hseed 1%nat) in E. apply toBuffer_inj, E.
  - intros m b m' b'.
    exists [BET_SEED; toBuffer m; toBuffer b], [BET_SEED; toBuffer m'; toBuffer b'].
    split; [intros derive programId; reflexivity |].
    split; [intros derive programId; reflexivity |].
    split; [| intros [-> ->]; reflexivity].
    intros E. split.
    + apply (Hseed 1%nat) in E. apply toBuffer_inj, E.
    + apply (Hseed 2%nat) in E. apply toBuffer_inj, E.
Qed.

Lemma addresses_identify_keys_witness :
  exists seeds seeds',
    passes (fun derive => getMarketPDA derive (IsBN 7)) seeds /\
    passes (fun derive => getMarketPDA derive (IsNumber (-7))) seeds' /\
    (seeds = seeds' <-> Z.abs 7 = Z.abs (-7)).
Proof.
  refine (proj1 addresses_identify_keys (IsBN 7) (IsNumber (-7)) _ _ _ _);
    vm_compute; first [exact I | reflexivity].
Defined.

(** Refutes that a seed list is among seed lists of other kinds: the tags
    differ. *)
Ltac kinds_differ :=
  rewrite ?elem_of_cons, elem_of_nil; intros Hin;
  repeat (destruct Hin as [Hin | Hin]);
  try discriminate Hin; try exact Hin.

(** The seed lists of different kinds never meet: the tags are different,
    so neither vault of a market has the seeds of the other vault, of a bet,
    a market, an oracle, a license or the protocol state, and likewise for the
    other kinds. *)
Theorem addresses_of_kinds_differ
    (id : BNOrNumber) (oracle_id : Z) (key : list Z) (m m' m'' b : PublicKey) :
  converts id -> Z.abs (valueOf id) < 2 ^ 64 ->
  0 <= oracle_id < 2 ^ 32 -> (length key <= 32)%nat ->
  exists protocol market vault pool bet oracle license : list string,
    passes (fun derive programId => Some (getProtocolStatePDA derive programId))
      protocol /\
    passes (fun derive => getMarketPDA derive id) market /\
    passes (fun derive programId => Some (getMarketVaultPDA derive m programId))
      vault /\
    passes (fun derive programId => Some (getPoolVaultPDA derive m' programId))
      pool /\
    passes (fun derive programId => Some (getBetPDA derive m'' b programId)) bet /\
    passes (fun derive => getOraclePDA derive oracle_id) oracle /\
    passes (fun derive programId => Some (getLicensePDA derive key programId))
      license /\
    NoDup [protocol; market; vault; pool; bet; oracle; license].
Proof.
  intros Hconv Hid Horacle _.
  exists [PROTOCOL_SEED], [MARKET_SEED; leBytes 8 (Z.abs (valueOf id))],
    [MARKET_VAULT_SEED; toBuffer m], [POOL_VAULT_SEED; toBuffer m'],
    [BET_SEED; toBuffer m''; toBuffer b], [ORACLE_SEED; leBytes 4 oracle_id],
    [LICENSE_SEED; bufferFrom key].
  split; [intros derive programId; reflexivity |].
  split; [apply getMarketPDA_passes; assumption |].
  split; [intros derive programId; reflexivity |].
  split; [intros derive programId; reflexivity |].
  split; [intros derive programId; reflexivity |].
  split; [apply getOraclePDA_passes; assumption |].
  split; [intros derive programId; reflexivity |].
  unfold PROTOCOL_SEED, MARKET_SEED, MARKET_VAULT_SEED, POOL_VAULT_SEED, BET_SEED,
    ORACLE_SEED, LICENSE_SEED.
  repeat (apply NoDup_cons_2; [kinds_differ |]).
  apply NoDup_nil_2.
Qed.

Lemma addresses_of_kinds_differ_witness :
  exists protocol market vault pool bet oracle license : list string,
    passes (fun derive programId => Some (getProtocolStatePDA derive programId))
      protocol /\
    passes (fun derive => getMarketPDA derive (IsNumber 1)) market /\
    passes (fun derive programId =>
              Some (getMarketVaultPDA derive Scenario.market1 programId)) vault /\
    passes (fun derive programId =>
              Some (getPoolVaultPDA derive Scenario.market1 programId)) pool /\
    passes (fun derive programId =>
              Some (getBetPDA derive Scenario.market1 Scenario.bettor1 programId))
      bet /\
    passes (fun derive => getOraclePDA derive 1) oracle /\
    passes (fun derive programId => Some (getLicensePDA derive [1; 2; 3] programId))
      license /\
    NoDup [protocol; market; vault; pool; bet; oracle; license].
Proof.
  refine (addresses_of_kinds_differ (IsNumber 1) 1 [1; 2; 3] Scenario.market1
            Scenario.market1 Scenario.market1 Scenario.bettor1 _ _ _ _).
  - vm_compute. reflexivity.
  - vm_compute. reflexivity.
  - vm_compute. split; [discriminate | reflexivity].
  - cbn. lia.
Defined.

End AddressSeeds.

